(** * Copeland-Galai equilibrium bid/ask: the solver of [utils.py]

    A shallow embedding of [CopelandGalaiCalc] (src/technical_analysis/utils.py)
    and of the script that calls it (src/technical_analysis/main.py), the
    properties its specification states, and further properties of the code.

    Numbers.  The program computes on binary64 floats.  The profit closures
    are embedded on the real numbers the floats approximate, so rounding,
    overflow and underflow are outside that model: what is stated of a
    closure is stated where its value is finite, or is about the roots of
    the exact profit function.  The lines that make the returned triple from
    the solver's answer are embedded a second time on binary64 floats
    ([Binary64]), where identities between the returned numbers are decided.
    What is kept of the float semantics in the real model is the one event
    the formulas can really meet, a division by zero:
    - between Python scalars ([EV = 1.0 / lam]) it raises [ZeroDivisionError];
    - inside the profit closures the operands are numpy arrays (the solver
      calls the closure on an array), the quotient is [inf] or [nan] and no
      exception is raised.  A value that is not a finite number is [None]
      and stays [None].  The program can come back from an infinite value
      at one place only, [norm.pdf] and [norm.cdf] of an infinite [z] when
      [sigma] is zero; one of the two conditional means is then 0/0, so the
      profit the closure returns is not finite there either.

    Libraries.  [norm.pdf], [norm.cdf] and [np.exp] are the mathematical
    functions they compute; [fsolve] is a parameter of the two entry points.

    Contents: the program, the formulas of the specification, the standard
    normal CDF (bounds, symmetry, lower Mills bound), the properties of
    the profit closures and of the returned triple, then scaling, existence
    and uniqueness of the zero-profit spread for both families, what the
    script prints, and the monotonicity of the returned spread in pi. *)

From Stdlib Require Import Reals Ranalysis5 Lra.
From Stdlib Require Import String.
From Stdlib Require Floats.PrimFloat Floats.FloatOps Floats.SpecFloat.

Local Open Scope R_scope.

(** ** Values and outcomes *)

(** A float the closure computes: a real, or [None] for [inf]/[nan]. *)
Definition num : Type := option R.

(** Sequencing of computations that may leave the finite numbers. *)
Definition bind {A B : Type} (m : option A) (k : A -> option B) : option B :=
  match m with
  | Some x => k x
  | None => None
  end.

Notation "x <- m ;; k" := (bind m (fun x => k))
  (at level 61, m at next level, right associativity).

(** [x / y] on floats: no finite value when the divisor is zero. *)
Definition div (x y : R) : num :=
  if Req_dec_T y 0 then None else Some (x / y).

(** The exceptions the two entry points can raise. *)
Inductive exn : Type :=
| ZeroDivisionError.

(** What a call of an entry point does: return a value or raise. *)
Inductive outcome (A : Type) : Type :=
| Return (x : A)
| Raise (e : exn).

Arguments Return {A} x.
Arguments Raise {A} e.

(** The returned tuple [(bid, ask, spread)]. *)
Record quote : Type := Quote { bid : R; ask : R; spread : R }.

(** ** scipy.stats.norm *)

Module norm.

(** Modelled from the spec: [norm.pdf] is scipy's, not code of the
    repository; the spec names it the standard normal density. *)
Definition pdf (z : R) : R := exp (- (z * z) / 2) / sqrt (2 * PI).

Lemma pdf_derivable : derivable pdf.
Proof. unfold pdf. reg. Qed.

Lemma pdf_continuity : continuity pdf.
Proof. apply derivable_continuous, pdf_derivable. Qed.

Lemma pdf_integrable (lo hi : R) : Riemann_integrable pdf lo hi.
Proof.
  destruct (Rle_dec lo hi) as [Hle | Hgt].
  - apply continuity_implies_RiemannInt; [exact Hle | ].
    intros x _. apply pdf_continuity.
  - apply RiemannInt_P1, continuity_implies_RiemannInt; [lra | ].
    intros x _. apply pdf_continuity.
Qed.

(** Modelled from the spec: [norm.cdf] is scipy's, not code of the
    repository; the spec names it the standard normal CDF.  It is written
    the way scipy computes it, from the error function: one half plus the
    integral of the density from 0 to [z]. *)
Definition cdf (z : R) : R := 1 / 2 + RiemannInt (pdf_integrable 0 z).

End norm.

(** ** numpy *)

Module np.

(** [np.exp], the exponential function. *)
Definition exp (x : R) : R := Rtrigo_def.exp x.

End np.

(** ** class CopelandGalaiCalc *)

Module CopelandGalaiCalc.

(** *** The closure [_expected_profit] of [bid_ask_normal]

    The closure captures [mu], [sigma] and [pi]; each local variable of its
    body is a function of the candidate spread [S].  Over the reals the
    divisors [1 - norm.cdf z] and [norm.cdf z] are never zero; on floats
    they are 0.0 far in the tails (from z about 8.3, resp. below about -38),
    and the closure is [inf] or [nan] there. *)
Module Normal.
Section closure.

Variables mu sigma pi : R.

Definition a (S : R) : R := mu + S / 2.
Definition b (S : R) : R := mu - S / 2.

Definition z_a (S : R) : num := div (a S - mu) sigma.
Definition z_b (S : R) : num := div (mu - b S) sigma.

Definition E_V_gt_a (S : R) : num :=
  z <- z_a S ;;
  q <- div (sigma * norm.pdf z) (1 - norm.cdf z) ;;
  Some (mu + q).

Definition E_V_lt_b (S : R) : num :=
  z <- z_b S ;;
  q <- div (sigma * norm.pdf z) (norm.cdf z) ;;
  Some (mu - q).

Definition profit_ask (S : R) : num :=
  e <- E_V_gt_a S ;;
  Some ((1 - pi) * (a S - mu) + pi * (a S - e)).

Definition profit_bid (S : R) : num :=
  e <- E_V_lt_b S ;;
  Some ((1 - pi) * (mu - b S) + pi * (e - b S)).

Definition _expected_profit (S : R) : num :=
  pa <- profit_ask S ;;
  pb <- profit_bid S ;;
  Some (0.5 * (pa + pb)).

End closure.
End Normal.

(** *** The closure [_expected_profit] of [bid_ask_exponential]

    It captures [lam], [pi] and [EV], the mean computed before it is built.
    Its [1 / lam] divides Python scalars, which raises when [lam] is zero;
    the closure is then never built, [EV = 1.0 / lam] has raised before.
    Over the reals the lower mean is finite wherever [lam b] is not zero; on
    floats [np.exp] overflows above about 709.78 and the closure is [inf] or
    [nan] beyond. *)
Module Exponential.
Section closure.

Variables lam pi EV : R.

Definition a (S : R) : R := EV + S / 2.
Definition b (S : R) : R := EV - S / 2.

Definition E_V_gt_a (S : R) : num :=
  q <- div 1 lam ;;
  Some (a S + q).

Definition E_V_lt_b (S : R) : num :=
  div (1 - np.exp (- lam * b S) * (1 + lam * b S))
      (lam * (1 - np.exp (- lam * b S))).

Definition profit_ask (S : R) : num :=
  e <- E_V_gt_a S ;;
  Some ((1 - pi) * (a S - EV) + pi * (a S - e)).

Definition profit_bid (S : R) : num :=
  e <- E_V_lt_b S ;;
  Some ((1 - pi) * (EV - b S) + pi * (e - b S)).

Definition _expected_profit (S : R) : num :=
  pa <- profit_ask S ;;
  pb <- profit_bid S ;;
  Some (0.5 * (pa + pb)).

End closure.
End Exponential.

(** *** The two entry points

    [scipy.optimize.fsolve] is not code of the repository: it is a parameter,
    a function from the closure and the initial guess to the float the entry
    points read from its result, [float(fsolve(f, guess)[0])].  The triple
    is made here over the reals, where the closures live; [Binary64] below
    has the same lines on floats. *)
Section solver.

Variable fsolve : (R -> num) -> R -> R.

Definition bid_ask_normal (mu sigma pi initial_guess : R) : outcome quote :=
  let spread := fsolve (Normal._expected_profit mu sigma pi) initial_guess in
  let ask := mu + spread / 2 in
  let bid := mu - spread / 2 in
  Return (Quote bid ask spread).

Definition bid_ask_exponential (lam pi initial_guess : R) : outcome quote :=
  if Req_dec_T lam 0 then Raise ZeroDivisionError
  else
    let EV := 1.0 / lam in
    let spread :=
      fsolve (Exponential._expected_profit lam pi EV) initial_guess in
    let ask := EV + spread / 2 in
    let bid := EV - spread / 2 in
    Return (Quote bid ask spread).

End solver.

End CopelandGalaiCalc.

Import CopelandGalaiCalc.

(** ** The script [main.py] *)

(** What [main] prints: a literal line, or the line made from a returned
    triple (the rendering of the three floats with four decimals is left
    out). *)
Inductive output : Type :=
| Text (s : string)
| Quotes (bid ask spread : R).

Definition print (x : output) (out : list output) : list output :=
  (out ++ x :: nil)%list.

Section script.

Variable fsolve : (R -> num) -> R -> R.

(** [main]: the lines printed, in order, and how the run ends.  Both entry
    points are called with their default [initial_guess = 1.0]; an
    exception of a callee is not caught, it ends the run after the lines
    printed before it. *)
Definition main : list output * outcome unit :=
  let out := print (Text "------- Normal Distribution -------"%string) nil in
  match bid_ask_normal fsolve 102 7 0.3 1.0 with
  | Raise e => (out, Raise e)
  | Return (Quote bid_n ask_n spread_n) =>
      let out := print (Quotes bid_n ask_n spread_n) out in
      let out := print (Text "----- Exponential Distribution -----"%string) out in
      match bid_ask_exponential fsolve 0.0075 0.01 1.0 with
      | Raise e => (out, Raise e)
      | Return (Quote bid_e ask_e spread_e) =>
          (print (Quotes bid_e ask_e spread_e) out, Return tt)
      end
  end.

End script.

(** ** The entry points on binary64 floats

    [spread = float(fsolve(...)[0])], [ask = c + spread / 2],
    [bid = c - spread / 2]: the triple is made by three float operations
    from the center [c] and the float read from the solver's result.  Rocq's
    primitive floats are IEEE 754 binary64 with rounding to nearest, ties to
    even, as Python's floats.  The body of a closure calls scipy's
    [norm.pdf] and [norm.cdf] or numpy's [exp] and is run by the solver
    alone, so a closure is given here by the variables it captures. *)
Module Binary64.
Section returned.
Import PrimFloat.

(** The real number a finite float stands for. *)
Definition value (x : float) : R :=
  match FloatOps.Prim2SF x with
  | SpecFloat.S754_finite s m e =>
      (if s then - IZR (Zpos m) else IZR (Zpos m)) * powerRZ 2 e
  | _ => 0
  end.

(** The unit roundoff of binary64. *)
Definition u : R := / 2 ^ 53.

(** [x] is a finite float within relative error [u] of the real [r]: what
    a correctly rounded operation with exact result [r] returns when it
    neither overflows nor underflows. *)
Definition rounds (x : float) (r : R) : Prop :=
  is_finite x = true /\ Rabs (value x - r) <= u * Rabs r.

(** Halving the float [x] is exact. *)
Definition halves (x : float) : Prop :=
  is_finite (x / 2) = true /\ value (x / 2) = value x / 2.

(** The three operations that made [bid] and [ask] from the center [c] and
    [spread] were correctly rounded. *)
Definition quotes_rounded (c bid ask spread : float) : Prop :=
  halves spread
  /\ rounds ask (value c + value spread / 2)
  /\ rounds bid (value c - value spread / 2).

(** The closure [_expected_profit] an entry point hands to the solver. *)
Inductive closure : Type :=
| normal_profit (mu sigma pi : float)
| exponential_profit (lam pi EV : float).

(** [float(fsolve(f, initial_guess)[0])]. *)
Variable fsolve : closure -> float -> float.

Definition bid_ask_normal (mu sigma pi initial_guess : float)
  : outcome (float * float * float) :=
  let spread := fsolve (normal_profit mu sigma pi) initial_guess in
  let ask := (mu + spread / 2)%float in
  let bid := (mu - spread / 2)%float in
  Return (bid, ask, spread).

(** [1.0 / lam] raises on a zero of either sign. *)
Definition bid_ask_exponential (lam pi initial_guess : float)
  : outcome (float * float * float) :=
  if (lam =? 0)%float then Raise ZeroDivisionError
  else
    let EV := (1 / lam)%float in
    let spread := fsolve (exponential_profit lam pi EV) initial_guess in
    let ask := (EV + spread / 2)%float in
    let bid := (EV - spread / 2)%float in
    Return (bid, ask, spread).

End returned.
End Binary64.

(** ** The formulas of the specification *)

Module Spec.

(** The profit function of the Equilibrium Solver, from the two conditional
    means [E_gt_a] and [E_lt_b] at the quotes around the center [c]. *)
Definition profit (c pi E_gt_a E_lt_b S : R) : R :=
  let a := c + S / 2 in
  let b := c - S / 2 in
  let profit_ask := (1 - pi) * (a - c) + pi * (a - E_gt_a) in
  let profit_bid := (1 - pi) * (c - b) + pi * (E_lt_b - b) in
  0.5 * (profit_ask + profit_bid).

(** Normal(mu, sigma): the upper- and lower-truncated means of the
    Conditional-Expectation Engine. *)
Definition normal_upper (mu sigma a : R) : R :=
  let z_a := (a - mu) / sigma in
  mu + sigma * norm.pdf z_a / (1 - norm.cdf z_a).

Definition normal_lower (mu sigma b : R) : R :=
  let z_b := (mu - b) / sigma in
  mu - sigma * norm.pdf z_b / norm.cdf z_b.

(** Exponential(lam): the memoryless upper mean and the mean below [b]. *)
Definition exponential_upper (lam a : R) : R := a + 1 / lam.

Definition exponential_lower (lam b : R) : R :=
  (1 - exp (- lam * b) * (1 + lam * b)) / (lam * (1 - exp (- lam * b))).

End Spec.

(** ** Solvers to run the entry points with *)

(** One secant step from the initial guess; where the closure has no finite
    value, or the secant is flat, the guess is returned unchanged. *)
Definition secant_step (f : R -> num) (x0 : R) : R :=
  match f x0, f (x0 + 1) with
  | Some y0, Some y1 =>
      if Req_dec_T (y1 - y0) 0 then x0 else x0 - y0 / (y1 - y0)
  | _, _ => x0
  end.

(** No step at all: the guess is returned, as a solver does that is handed
    a root. *)
Definition no_step (f : R -> num) (x0 : R) : R := x0.

(** A solver that answers the first of two candidates at which the function
    vanishes, the second one otherwise. *)
Definition first_root (c1 c2 : R) (f : R -> num) (x0 : R) : R :=
  match f c1 with
  | Some r => if Req_dec_T r 0 then c1 else c2
  | None => c2
  end.

(** ** Reported errors *)

(** An entry point reports an error when its call raises. *)
Definition reports_error {A : Type} (o : outcome A) : Prop :=
  exists e, o = Raise e.

(** ** Functions of the analysis *)

(** The integral of the density from 0: [norm.cdf z = 1/2 + pdf_integral z]. *)
Definition pdf_integral (x : R) : R := RiemannInt (norm.pdf_integrable 0 x).

(** The kernel of the Gaussian integral and its first two derivatives in
    [x]. *)
Definition kern (u x : R) : R :=
  exp (- (x * x) * (1 + u * u) / 2) / (1 + u * u).

Definition dkern (u x : R) : R := - x * exp (- (x * x) * (1 + u * u) / 2).

Definition d2kern (u x : R) : R :=
  (x * x * (1 + u * u) - 1) * exp (- (x * x) * (1 + u * u) / 2).

(** A bound of [d2kern u y] for [u] in [0, 1] and [y] within 1 of [x]. *)
Definition kern_bound (x : R) : R := 2 * ((Rabs x + 1) * (Rabs x + 1)) + 1.

(** The remainder of the first-order expansion of [kern] in [x]. *)
Definition rem (x h u : R) : R :=
  (kern u (x + h) + (-1) * kern u x) + (- h) * dkern u x.

(** The density along the ray [u |-> x u]. *)
Definition ray (x u : R) : R := x * norm.pdf (x * u).

(** The Exponential lower mean is [b + 1/lam - hfun (lam b) / lam]. *)
Definition hfun (x : R) : R := x / (1 - exp (- x)).

Definition hfun' (x : R) : R :=
  (1 - exp (- x) * (1 + x)) / ((1 - exp (- x)) * (1 - exp (- x))).

(** An Exponential root with bid [x / lam] is a zero of [bid_gap pi]. *)
Definition bid_gap (pi x : R) : R := pi * hfun x - 2 * (1 - pi) * (1 - x).

(** The lower Mills bound says [mills_tail z <= 1 - Phi(z)]. *)
Definition mills_tail (z : R) : R := z * norm.pdf z / (1 + z * z).

Definition mills_tail' (z : R) : R :=
  norm.pdf z * (1 - 2 * (z * z) - z * z * (z * z))
  / ((1 + z * z) * (1 + z * z)).

Definition mills_gap (z : R) : R := (1 - norm.cdf z) - mills_tail z.

Definition mills_gap' (z : R) : R :=
  - (2 * norm.pdf z / ((1 + z * z) * (1 + z * z))).

(** [1 / phi(z)]. *)
Definition inv_pdf (z : R) : R := sqrt (2 * PI) * exp (z * z / 2).

(** [z Phi(z) (1 - Phi(z)) / phi(z)]: the Normal profit vanishes at
    [S = 2 sigma z] exactly when [2 normal_root z = pi]. *)
Definition normal_root (z : R) : R :=
  z * norm.cdf z * (1 - norm.cdf z) * inv_pdf z.

Definition normal_root' (z : R) : R :=
  (norm.cdf z * (1 - norm.cdf z) * (1 + z * z)
   + z * norm.pdf z * (1 - 2 * norm.cdf z)) * inv_pdf z.

(** ** Partial division and sequencing *)

Lemma div_defined (x y : R) : y <> 0 -> div x y = Some (x / y).
Proof.
  intros Hy. unfold div. destruct (Req_dec_T y 0) as [E | _]; [tauto | reflexivity].
Qed.

Lemma div_by_zero (x : R) : div x 0 = None.
Proof.
  unfold div. destruct (Req_dec_T 0 0) as [_ | N]; [reflexivity | now elim N].
Qed.

Lemma bind_Some {A B : Type} (m : option A) (k : A -> option B) (y : B) :
  bind m k = Some y -> exists x, m = Some x /\ k x = Some y.
Proof.
  destruct m as [x | ]; simpl; [ | discriminate].
  intros H. exists x. split; [reflexivity | exact H].
Qed.

(** Unfolds one step of a closure whose value is known to be finite. *)
Ltac bind_inv H :=
  let x := fresh "v" in
  let Hx := fresh "Hv" in
  apply bind_Some in H; destruct H as (x & Hx & H).

(** ** The standard normal density and CDF *)

Lemma sqrt_2PI_gt_2 : 2 < sqrt (2 * PI).
Proof.
  assert (HPI := PI2_1).
  rewrite <- (sqrt_square 2) at 1 by lra.
  apply sqrt_lt_1; lra.
Qed.

Lemma pdf_pos (z : R) : 0 < norm.pdf z.
Proof.
  unfold norm.pdf. apply Rdiv_lt_0_compat; [apply exp_pos | ].
  pose proof sqrt_2PI_gt_2. lra.
Qed.

Lemma pdf_decreasing (x z : R) : Rabs x <= Rabs z -> norm.pdf z <= norm.pdf x.
Proof.
  intros Hxz. unfold norm.pdf.
  apply Rmult_le_compat_r.
  - left. apply Rinv_0_lt_compat. pose proof sqrt_2PI_gt_2. lra.
  - assert (Hsq : x * x <= z * z).
    { assert (Hx : x * x = Rabs x * Rabs x)
        by (unfold Rabs; destruct (Rcase_abs x); lra).
      assert (Hz : z * z = Rabs z * Rabs z)
        by (unfold Rabs; destruct (Rcase_abs z); lra).
      rewrite Hx, Hz.
      apply Rmult_le_compat; try apply Rabs_pos; exact Hxz. }
    destruct (Req_dec (x * x) (z * z)) as [E | N].
    + rewrite E. lra.
    + left. apply exp_increasing. lra.
Qed.

Lemma pdf_0_lt_half : norm.pdf 0 < 1 / 2.
Proof.
  unfold norm.pdf.
  replace (- (0 * 0) / 2) with 0 by lra. rewrite exp_0.
  pose proof sqrt_2PI_gt_2 as H.
  apply Rmult_lt_reg_r with (sqrt (2 * PI)); [lra | ].
  unfold Rdiv at 1. rewrite Rmult_assoc, Rinv_l by lra. lra.
Qed.

Lemma cdf_0 : norm.cdf 0 = 1 / 2.
Proof. unfold norm.cdf. rewrite RiemannInt_P9. lra. Qed.

Lemma pdf_integral_bounds (z : R) (pr : Riemann_integrable norm.pdf 0 z) :
  0 <= z -> norm.pdf z * z <= RiemannInt pr <= norm.pdf 0 * z.
Proof.
  intros Hz.
  assert (Hb : norm.pdf z * (z - 0) <= RiemannInt pr <= norm.pdf 0 * (z - 0)).
  2: { rewrite Rminus_0_r in Hb. exact Hb. }
  apply RiemannInt_const_bound; [exact Hz | ].
  intros x Hx. split; apply pdf_decreasing.
  - rewrite !Rabs_pos_eq; lra.
  - rewrite Rabs_R0. apply Rabs_pos.
Qed.

Lemma cdf_gt_half (z : R) : 0 < z -> 1 / 2 < norm.cdf z.
Proof.
  intros Hz. unfold norm.cdf.
  pose proof (pdf_integral_bounds z (norm.pdf_integrable 0 z)) as Hb.
  pose proof (pdf_pos z) as Hp.
  assert (0 < norm.pdf z * z) by (apply Rmult_lt_0_compat; lra).
  lra.
Qed.

(** ** Integrals of continuous functions *)
Section continuous_integrals.

Variable f : R -> R.
Hypothesis f_cont : continuity f.

Lemma continuity_integrable (lo hi : R) : Riemann_integrable f lo hi.
Proof.
  destruct (Rle_dec lo hi) as [Hle | Hgt].
  - apply continuity_implies_RiemannInt; [exact Hle | ].
    intros x _. apply f_cont.
  - apply RiemannInt_P1, continuity_implies_RiemannInt; [lra | ].
    intros x _. apply f_cont.
Qed.

Lemma integral_derivative (pr : forall lo hi, Riemann_integrable f lo hi)
      (lo x : R) :
  derivable_pt_lim (fun y => RiemannInt (pr lo y)) x (f x).
Proof.
  set (l := Rmin lo x - 1). set (h := Rmax lo x + 1).
  assert (Hlo : l < lo < h).
  { unfold l, h. pose proof (Rmin_l lo x). pose proof (Rmax_l lo x). lra. }
  assert (Hx : l < x < h).
  { unfold l, h. pose proof (Rmin_r lo x). pose proof (Rmax_r lo x). lra. }
  assert (Hle : l <= h) by lra.
  assert (C0 : forall y, l <= y <= h -> continuity_pt f y)
    by (intros y _; apply f_cont).
  pose proof (RiemannInt_P27 Hle C0 Hx) as HP.
  set (c := RiemannInt (pr l lo)).
  apply derivable_pt_lim_locally_ext
    with (f := (primitive Hle (FTC_P1 Hle C0) - fct_cte c)%F) (a := l) (b := h);
    [exact Hx | | ].
  - intros y Hy. unfold minus_fct, fct_cte, primitive.
    destruct (Rle_dec l y) as [Hl | Hl]; [ | lra].
    destruct (Rle_dec y h) as [Hh | Hh]; [ | lra].
    unfold c.
    rewrite <- (RiemannInt_P26 (pr l lo) (pr lo y) (FTC_P1 Hle C0 Hl Hh)).
    lra.
  - replace (f x) with (f x - 0) by lra.
    apply derivable_pt_lim_minus; [exact HP | apply derivable_pt_lim_const].
Qed.

End continuous_integrals.

(** Two functions with the same derivative everywhere and the same value at
    one point are equal. *)
Lemma same_derivative_eq (F G f : R -> R) (x0 : R) :
  (forall x, derivable_pt_lim F x (f x)) ->
  (forall x, derivable_pt_lim G x (f x)) ->
  F x0 = G x0 -> forall x, F x = G x.
Proof.
  intros HF HG H0 x.
  set (D := (F - G)%F).
  assert (HD : forall y, derivable_pt_lim D y 0).
  { intros y. replace 0 with (f y - f y) by lra.
    apply derivable_pt_lim_minus; [apply HF | apply HG]. }
  assert (pr : derivable D) by (intros y; exists 0; apply HD).
  assert (Hc : constant D).
  { apply (null_derivative_1 D pr). intros y. apply derive_pt_eq_0, HD. }
  specialize (Hc x x0). unfold D, minus_fct in Hc. lra.
Qed.

Lemma second_order_bound (f f' f'' : R -> R) (x h M : R) :
  (forall y, derivable_pt_lim f y (f' y)) ->
  (forall y, derivable_pt_lim f' y (f'' y)) ->
  (forall y, Rmin x (x + h) <= y <= Rmax x (x + h) -> Rabs (f'' y) <= M) ->
  Rabs (f (x + h) - f x - h * f' x) <= M * (h * h).
Proof.
  intros Hf Hf' HM.
  set (g := fun y => f y - f' x * y).
  assert (Hg : forall y, derivable_pt_lim g y (f' y - f' x)).
  { intros y.
    assert (Hlin : derivable_pt_lim (mult_real_fct (f' x) id) y (f' x * 1))
      by apply derivable_pt_lim_scal, derivable_pt_lim_id.
    rewrite Rmult_1_r in Hlin.
    apply (derivable_pt_lim_minus f (mult_real_fct (f' x) id));
      [apply Hf | exact Hlin]. }
  destruct (MVT_abs g (fun y => f' y - f' x) x (x + h)) as (c & Hc & Hcr).
  { intros y _. apply Hg. }
  destruct (MVT_abs f' f'' x c) as (d & Hd & Hdr).
  { intros y _. apply Hf'. }
  replace (f (x + h) - f x - h * f' x) with (g (x + h) - g x)
    by (unfold g; lra).
  rewrite Hc, Hd.
  replace (x + h - x) with h by lra.
  assert (Hcx : Rabs (c - x) <= Rabs h).
  { revert Hcr. unfold Rmin, Rmax, Rabs.
    destruct (Rle_dec x (x + h)); destruct (Rcase_abs (c - x));
      destruct (Rcase_abs h); lra. }
  assert (HdM : Rabs (f'' d) <= M).
  { apply HM. revert Hcr Hdr. unfold Rmin, Rmax.
    destruct (Rle_dec x (x + h)); destruct (Rle_dec x c); lra. }
  assert (H0M : 0 <= M) by (pose proof (Rabs_pos (f'' d)); lra).
  assert (Hh2 : h * h = Rabs h * Rabs h)
    by (unfold Rabs; destruct (Rcase_abs h); lra).
  rewrite Hh2, <- Rmult_assoc.
  apply Rmult_le_compat_r; [apply Rabs_pos | ].
  apply Rmult_le_compat; try apply Rabs_pos; assumption.
Qed.

(** ** The Gaussian integral

    [norm.cdf] stays strictly between 0 and 1.  With [F x] the integral of
    the density from 0 to [x] and [K x] the integral over [0, 1] of
    [kern u x = exp (- x^2 (1 + u^2) / 2) / (1 + u^2)], the function
    [PI * F^2 + K] has derivative 0, so it is the constant [K 0 = PI / 4];
    as [K] is positive, [F^2 < 1/4]. *)

Lemma one_plus_sqr_pos (u : R) : 0 < 1 + u * u.
Proof. pose proof (Rle_0_sqr u) as H. unfold Rsqr in H. lra. Qed.

Lemma kern_dx (u x : R) : derivable_pt_lim (kern u) x (dkern u x).
Proof.
  unfold kern, dkern.
  pose proof (one_plus_sqr_pos u) as Hu.
  assert (pr : derivable_pt
                 (fun y => exp (- (y * y) * (1 + u * u) / 2) / (1 + u * u)) x).
  { reg. }
  apply derive_pt_eq_1 with pr. reg.
  unfold Rdiv. field. lra.
Qed.

Lemma dkern_dx (u x : R) : derivable_pt_lim (dkern u) x (d2kern u x).
Proof.
  unfold dkern, d2kern.
  assert (pr : derivable_pt
                 (fun y => - y * exp (- (y * y) * (1 + u * u) / 2)) x) by reg.
  apply derive_pt_eq_1 with pr. reg.
  unfold comp, Rdiv. cbv beta. field.
Qed.

Lemma kern_continuity_u (x : R) : continuity (fun u => kern u x).
Proof.
  unfold kern. intros u. pose proof (one_plus_sqr_pos u). reg. lra.
Qed.

Lemma dkern_continuity_u (x : R) : continuity (fun u => dkern u x).
Proof. unfold dkern. intros u. reg. Qed.

Lemma exp_nonpos_le_1 (t : R) : t <= 0 -> exp t <= 1.
Proof.
  intros Ht. destruct (Req_dec t 0) as [-> | N].
  - rewrite exp_0. lra.
  - left. rewrite <- exp_0. apply exp_increasing. lra.
Qed.

Lemma d2kern_bound (u x y : R) :
  0 <= u <= 1 -> Rabs y <= Rabs x + 1 ->
  Rabs (d2kern u y) <= 2 * ((Rabs x + 1) * (Rabs x + 1)) + 1.
Proof.
  intros Hu Hy. unfold d2kern.
  assert (Hy2 : 0 <= y * y <= (Rabs x + 1) * (Rabs x + 1)).
  { assert (E : y * y = Rabs y * Rabs y)
      by (unfold Rabs; destruct (Rcase_abs y); lra).
    rewrite E. pose proof (Rabs_pos y). split.
    - apply Rmult_le_pos; lra.
    - apply Rmult_le_compat; lra. }
  assert (Hu2 : 0 <= u * u <= 1).
  { split; [apply Rmult_le_pos; lra | ].
    replace 1 with (1 * 1) by lra. apply Rmult_le_compat; lra. }
  assert (Hc : 0 <= y * y * (1 + u * u) <= 2 * ((Rabs x + 1) * (Rabs x + 1))).
  { split; [apply Rmult_le_pos; lra | ].
    rewrite (Rmult_comm 2).
    apply Rmult_le_compat; lra. }
  assert (He : 0 < exp (- (y * y) * (1 + u * u) / 2) <= 1).
  { split; [apply exp_pos | apply exp_nonpos_le_1; lra]. }
  rewrite Rabs_mult, (Rabs_pos_eq (exp _)) by lra.
  apply Rle_trans with (Rabs (y * y * (1 + u * u) - 1) * 1).
  - apply Rmult_le_compat_l; [apply Rabs_pos | lra].
  - rewrite Rmult_1_r. apply Rabs_le. lra.
Qed.

Definition K (x : R) : R :=
  RiemannInt (continuity_integrable _ (kern_continuity_u x) 0 1).

Definition dK (x : R) : R :=
  RiemannInt (continuity_integrable _ (dkern_continuity_u x) 0 1).

Lemma rem_continuity (x h : R) : continuity (rem x h).
Proof.
  change (continuity
            (((fun u => kern u (x + h))
              + mult_real_fct (-1) (fun u => kern u x))
             + mult_real_fct (- h) (fun u => dkern u x))%F).
  apply continuity_plus; [apply continuity_plus | ].
  - apply kern_continuity_u.
  - apply continuity_scal, kern_continuity_u.
  - apply continuity_scal, dkern_continuity_u.
Qed.

Lemma rem_integral (x h : R) :
  RiemannInt (continuity_integrable _ (rem_continuity x h) 0 1)
  = K (x + h) - K x - h * dK x.
Proof.
  unfold K, dK.
  set (p1 := continuity_integrable _ (kern_continuity_u (x + h)) 0 1).
  set (p2 := continuity_integrable _ (kern_continuity_u x) 0 1).
  set (p3 := continuity_integrable _ (dkern_continuity_u x) 0 1).
  pose (p12 := RiemannInt_P10 (-1) p1 p2).
  pose proof (RiemannInt_P13 p12 p3
                (continuity_integrable _ (rem_continuity x h) 0 1)) as E1.
  pose proof (RiemannInt_P13 p1 p2 p12) as E2.
  transitivity (RiemannInt p12 + - h * RiemannInt p3); [exact E1 | ].
  rewrite E2. lra.
Qed.

Lemma Rabs_le_bounds (x a : R) : Rabs x <= a -> - a <= x <= a.
Proof. unfold Rabs. destruct (Rcase_abs x); lra. Qed.

Lemma kern_bound_pos (x : R) : 1 <= kern_bound x.
Proof.
  unfold kern_bound. pose proof (Rabs_pos x).
  assert (0 <= (Rabs x + 1) * (Rabs x + 1)) by (apply Rmult_le_pos; lra).
  lra.
Qed.

Lemma rem_bound (x h u : R) :
  0 <= u <= 1 -> Rabs h <= 1 ->
  Rabs (rem x h u) <= kern_bound x * (h * h).
Proof.
  intros Hu Hh.
  replace (rem x h u) with (kern u (x + h) - kern u x - h * dkern u x)
    by (unfold rem; lra).
  apply second_order_bound with (f'' := d2kern u).
  - intros y. apply kern_dx.
  - intros y. apply dkern_dx.
  - intros y Hy. apply d2kern_bound; [exact Hu | ].
    revert Hy Hh. unfold Rmin, Rmax, Rabs.
    destruct (Rle_dec x (x + h)); destruct (Rcase_abs y);
      destruct (Rcase_abs x); destruct (Rcase_abs h); lra.
Qed.

Lemma K_derivative (x : R) : derivable_pt_lim K x (dK x).
Proof.
  intros eps Heps.
  pose proof (kern_bound_pos x) as HM.
  assert (Hd : 0 < Rmin 1 (eps / (kern_bound x + 1))).
  { apply Rmin_glb_lt; [lra | apply Rdiv_lt_0_compat; lra]. }
  exists (mkposreal _ Hd). simpl. intros h Hh0 Hh.
  assert (Hh1 : Rabs h <= 1).
  { pose proof (Rmin_l 1 (eps / (kern_bound x + 1))). lra. }
  assert (Hh2 : Rabs h < eps / (kern_bound x + 1)).
  { pose proof (Rmin_r 1 (eps / (kern_bound x + 1))). lra. }
  assert (Hint : Rabs (K (x + h) - K x - h * dK x)
                 <= kern_bound x * (h * h)).
  { rewrite <- rem_integral.
    assert (Hb : - (kern_bound x * (h * h)) * (1 - 0)
                 <= RiemannInt
                      (continuity_integrable _ (rem_continuity x h) 0 1)
                 <= kern_bound x * (h * h) * (1 - 0)).
    { apply RiemannInt_const_bound; [lra | ].
      intros u Hu.
      assert (Hu' : 0 <= u <= 1) by lra.
      pose proof (rem_bound x h u Hu' Hh1) as Hr.
      apply Rabs_le_bounds in Hr. lra. }
    apply Rabs_le. lra. }
  replace ((K (x + h) - K x) / h - dK x)
    with ((K (x + h) - K x - h * dK x) / h) by (field; exact Hh0).
  unfold Rdiv. rewrite Rabs_mult, Rabs_inv.
  assert (Hah : 0 < Rabs h) by (apply Rabs_pos_lt; exact Hh0).
  apply Rle_lt_trans with (kern_bound x * (h * h) * / Rabs h).
  - apply Rmult_le_compat_r; [ | exact Hint].
    left. apply Rinv_0_lt_compat, Hah.
  - assert (E : h * h = Rabs h * Rabs h)
      by (unfold Rabs; destruct (Rcase_abs h); lra).
    rewrite E.
    replace (kern_bound x * (Rabs h * Rabs h) * / Rabs h)
      with (kern_bound x * Rabs h) by (field; lra).
    apply Rle_lt_trans with (kern_bound x * (eps / (kern_bound x + 1))).
    + apply Rmult_le_compat_l; lra.
    + apply Rmult_lt_reg_r with (kern_bound x + 1); [lra | ].
      replace (kern_bound x * (eps / (kern_bound x + 1)) * (kern_bound x + 1))
        with (kern_bound x * eps) by (field; lra).
      assert (0 < eps * 1) by lra.
      nra.
Qed.

Lemma pdf_integral_0 : pdf_integral 0 = 0.
Proof. unfold pdf_integral. apply RiemannInt_P9. Qed.

Lemma pdf_integral_derivative (x : R) :
  derivable_pt_lim pdf_integral x (norm.pdf x).
Proof.
  exact (integral_derivative norm.pdf norm.pdf_continuity
           norm.pdf_integrable 0 x).
Qed.

Lemma ray_continuity (x : R) : continuity (ray x).
Proof.
  unfold ray. intros u.
  apply continuity_pt_mult; [apply continuity_pt_const; intros a b; reflexivity | ].
  apply (continuity_pt_comp (fun t => x * t) norm.pdf).
  - reg.
  - apply norm.pdf_continuity.
Qed.

Lemma ray_integral (x : R) :
  RiemannInt (continuity_integrable _ (ray_continuity x) 0 1) = pdf_integral x.
Proof.
  set (Q := fun u => RiemannInt (continuity_integrable _ (ray_continuity x) 0 u)).
  set (P := fun u => pdf_integral (x * u)).
  assert (HQ : forall u, derivable_pt_lim Q u (ray x u)).
  { intros u. unfold Q.
    apply (integral_derivative (ray x) (ray_continuity x)
             (continuity_integrable _ (ray_continuity x)) 0 u). }
  assert (HP : forall u, derivable_pt_lim P u (ray x u)).
  { intros u. unfold P, ray.
    rewrite Rmult_comm.
    apply (derivable_pt_lim_comp (fun t => x * t) pdf_integral).
    - assert (H : derivable_pt_lim (mult_real_fct x id) u (x * 1))
        by apply derivable_pt_lim_scal, derivable_pt_lim_id.
      rewrite Rmult_1_r in H. exact H.
    - apply pdf_integral_derivative. }
  assert (H0 : Q 0 = P 0).
  { unfold Q, P. rewrite RiemannInt_P9, Rmult_0_r, pdf_integral_0.
    reflexivity. }
  pose proof (same_derivative_eq Q P (ray x) 0 HQ HP H0 1) as H1.
  unfold Q, P in H1. rewrite Rmult_1_r in H1. exact H1.
Qed.

Lemma sqrt_2PI_sqr : sqrt (2 * PI) * sqrt (2 * PI) = 2 * PI.
Proof. apply sqrt_sqrt. pose proof PI_RGT_0. lra. Qed.

Lemma dkern_ray (x u : R) :
  dkern u x
  = 0 + (- (exp (- (x * x) / 2) * sqrt (2 * PI))) * ray x u.
Proof.
  unfold dkern, ray, norm.pdf.
  replace (- (x * x) * (1 + u * u) / 2)
    with (- (x * x) / 2 + - (x * u * (x * u)) / 2) by lra.
  rewrite exp_plus.
  pose proof sqrt_2PI_gt_2. field. lra.
Qed.

Lemma dK_value (x : R) :
  dK x = - (exp (- (x * x) / 2) * sqrt (2 * PI)) * pdf_integral x.
Proof.
  unfold dK.
  set (l := - (exp (- (x * x) / 2) * sqrt (2 * PI))).
  pose (p0 := RiemannInt_P14 0 1 0).
  pose (pr := continuity_integrable _ (ray_continuity x) 0 1).
  pose (p3 := RiemannInt_P10 l p0 pr).
  rewrite (RiemannInt_P18 (continuity_integrable _ (dkern_continuity_u x) 0 1)
             p3); [ | lra | ].
  - unfold p3. rewrite (RiemannInt_P13 p0 pr).
    unfold p0. rewrite RiemannInt_P15. unfold pr. rewrite ray_integral. lra.
  - intros u _. unfold fct_cte. apply dkern_ray.
Qed.

Definition J (x : R) : R := PI * (pdf_integral x * pdf_integral x) + K x.

Lemma J_derivative (x : R) : derivable_pt_lim J x 0.
Proof.
  unfold J.
  assert (Hsq : derivable_pt_lim (pdf_integral * pdf_integral)%F x
                  (norm.pdf x * pdf_integral x + pdf_integral x * norm.pdf x))
    by (apply derivable_pt_lim_mult; apply pdf_integral_derivative).
  assert (Hpi : derivable_pt_lim
                  (mult_real_fct PI (pdf_integral * pdf_integral)%F) x
                  (PI * (norm.pdf x * pdf_integral x
                         + pdf_integral x * norm.pdf x)))
    by (apply derivable_pt_lim_scal, Hsq).
  pose proof (derivable_pt_lim_plus _ _ _ _ _ Hpi (K_derivative x)) as H.
  replace 0 with (PI * (norm.pdf x * pdf_integral x
                        + pdf_integral x * norm.pdf x) + dK x).
  - exact H.
  - rewrite dK_value. unfold norm.pdf.
    pose proof sqrt_2PI_sqr as Hs. pose proof sqrt_2PI_gt_2 as Hg.
    set (c := sqrt (2 * PI)) in *. set (e := exp (- (x * x) / 2)).
    set (F := pdf_integral x).
    replace (PI * (e / c * F + F * (e / c)) + - (e * c) * F)
      with (e * F * (2 * PI - c * c) / c) by (field; lra).
    rewrite Hs. unfold Rdiv. ring.
Qed.

Lemma K_0 : K 0 = PI / 4.
Proof.
  unfold K.
  set (inv_sq := fun u : R => / (1 + u ^ 2)).
  assert (Hc : continuity inv_sq).
  { intros u. unfold inv_sq. pose proof (one_plus_sqr_pos u). reg. simpl. lra. }
  rewrite (RiemannInt_P18 (continuity_integrable _ (kern_continuity_u 0) 0 1)
             (continuity_integrable _ Hc 0 1)); [ | lra | ].
  - set (Q := fun u => RiemannInt (continuity_integrable _ Hc 0 u)).
    assert (HQ : forall u, derivable_pt_lim Q u (inv_sq u)).
    { intros u. unfold Q.
      apply (integral_derivative inv_sq Hc (continuity_integrable _ Hc) 0 u). }
    assert (HA : forall u, derivable_pt_lim atan u (inv_sq u))
      by (intros u; apply derivable_pt_lim_atan).
    assert (H0 : Q 0 = atan 0).
    { unfold Q. rewrite RiemannInt_P9, atan_0. reflexivity. }
    pose proof (same_derivative_eq Q atan inv_sq 0 HQ HA H0 1) as H1.
    unfold Q in H1. rewrite H1. apply atan_1.
  - intros u _. unfold kern, inv_sq.
    replace (- (0 * 0) * (1 + u * u) / 2) with 0 by lra.
    rewrite exp_0. unfold Rdiv. rewrite Rmult_1_l. f_equal. ring.
Qed.

Lemma J_constant (x : R) : J x = PI / 4.
Proof.
  assert (pr : derivable J) by (intros y; exists 0; apply J_derivative).
  assert (Hc : constant J).
  { apply (null_derivative_1 J pr). intros y.
    apply derive_pt_eq_0, J_derivative. }
  rewrite (Hc x 0). unfold J. rewrite pdf_integral_0, K_0. lra.
Qed.

Lemma K_pos (x : R) : 0 < K x.
Proof.
  unfold K.
  assert (Hb : exp (- (x * x)) / 2 * (1 - 0)
               <= RiemannInt
                    (continuity_integrable _ (kern_continuity_u x) 0 1)
               <= 1 * (1 - 0)).
  { apply RiemannInt_const_bound; [lra | ].
    intros u Hu. unfold kern.
    assert (Hu2 : 0 <= u * u <= 1).
    { split; [apply Rmult_le_pos; lra | ].
      replace 1 with (1 * 1) by lra. apply Rmult_le_compat; lra. }
    assert (Hx2 : 0 <= x * x) by (pose proof (Rle_0_sqr x); unfold Rsqr in *; lra).
    assert (Hxu : 0 <= x * x * (u * u)) by (apply Rmult_le_pos; lra).
    assert (Hxu' : x * x * (u * u) <= x * x * 1)
      by (apply Rmult_le_compat_l; lra).
    assert (He1 : exp (- (x * x)) <= exp (- (x * x) * (1 + u * u) / 2)).
    { destruct (Req_dec (- (x * x)) (- (x * x) * (1 + u * u) / 2)) as [E | N].
      - rewrite <- E. lra.
      - left. apply exp_increasing. lra. }
    assert (He2 : exp (- (x * x) * (1 + u * u) / 2) <= 1)
      by (apply exp_nonpos_le_1; lra).
    pose proof (exp_pos (- (x * x))) as Hp.
    split.
    - apply Rle_trans with (exp (- (x * x) * (1 + u * u) / 2) / 2).
      + lra.
      + unfold Rdiv. apply Rmult_le_compat_l; [lra | ].
        apply Rinv_le_contravar; lra.
    - apply Rle_trans with (exp (- (x * x) * (1 + u * u) / 2) / 1); [ | lra].
      unfold Rdiv. apply Rmult_le_compat_l; [lra | ].
      apply Rinv_le_contravar; lra. }
  pose proof (exp_pos (- (x * x))). lra.
Qed.

Lemma pdf_integral_bound (x : R) : - (1 / 2) < pdf_integral x < 1 / 2.
Proof.
  pose proof (J_constant x) as HJ. pose proof (K_pos x) as HK.
  unfold J in HJ. pose proof PI_RGT_0 as Hpi.
  set (F := pdf_integral x).
  assert (Hsq : F * F < 1 / 4).
  { apply Rmult_lt_reg_l with PI; [exact Hpi | ].
    fold F in HJ. unfold Rdiv in *. lra. }
  split.
  - destruct (Rlt_dec (- (1 / 2)) F) as [H | H]; [exact H | exfalso].
    assert (Hle : 1 / 2 * (1 / 2) <= - F * - F)
      by (apply Rmult_le_compat; lra).
    lra.
  - destruct (Rlt_dec F (1 / 2)) as [H | H]; [exact H | exfalso].
    assert (Hle : 1 / 2 * (1 / 2) <= F * F)
      by (apply Rmult_le_compat; lra).
    lra.
Qed.

Lemma cdf_bounds (z : R) : 0 < norm.cdf z < 1.
Proof.
  unfold norm.cdf. fold (pdf_integral z).
  pose proof (pdf_integral_bound z). lra.
Qed.

(** *** Symmetry *)

Lemma pdf_even (z : R) : norm.pdf (- z) = norm.pdf z.
Proof. unfold norm.pdf. do 2 f_equal. lra. Qed.

Lemma pdf_integral_odd (x : R) : pdf_integral (- x) = - pdf_integral x.
Proof.
  set (G := fun y => - pdf_integral (- y)).
  assert (HG : forall y, derivable_pt_lim G y (norm.pdf y)).
  { intros y. unfold G.
    replace (norm.pdf y) with (- (norm.pdf (- y) * -1))
      by (rewrite pdf_even; lra).
    apply (derivable_pt_lim_opp (fun t => pdf_integral (- t))).
    apply (derivable_pt_lim_comp (fun t => - t) pdf_integral).
    - apply (derivable_pt_lim_opp id y 1), derivable_pt_lim_id.
    - apply pdf_integral_derivative. }
  assert (H0 : G 0 = pdf_integral 0).
  { unfold G. rewrite Ropp_0, pdf_integral_0. lra. }
  pose proof (same_derivative_eq G pdf_integral norm.pdf 0
                HG pdf_integral_derivative H0 x) as H.
  unfold G in H. lra.
Qed.

Lemma cdf_opp (z : R) : norm.cdf (- z) = 1 - norm.cdf z.
Proof.
  unfold norm.cdf. fold (pdf_integral (- z)). fold (pdf_integral z).
  rewrite pdf_integral_odd. lra.
Qed.

(** ** The exponential *)

Lemma exp_eq_1 (x : R) : exp x = 1 -> x = 0.
Proof.
  intros H. destruct (Req_dec x 0) as [E | N]; [exact E | exfalso].
  destruct (Rtotal_order x 0) as [Hlt | [E | Hgt]]; [ | tauto | ].
  - pose proof (exp_increasing x 0 Hlt) as Hi. rewrite exp_0 in Hi. lra.
  - pose proof (exp_increasing 0 x Hgt) as Hi. rewrite exp_0 in Hi. lra.
Qed.

(** The divisor of the Exponential lower mean vanishes exactly when [lam] or
    [b] does. *)
Lemma exponential_lower_divisor (lam b : R) :
  lam * (1 - np.exp (- lam * b)) = 0 <-> lam = 0 \/ b = 0.
Proof.
  unfold np.exp. split.
  - intros H. apply Rmult_integral in H. destruct H as [H | H]; [now left | ].
    assert (He : exp (- lam * b) = 1) by lra.
    apply exp_eq_1 in He.
    assert (Hp : lam * b = 0) by lra.
    apply Rmult_integral in Hp. exact Hp.
  - intros [-> | ->].
    + lra.
    + rewrite Rmult_0_r, exp_0. lra.
Qed.

(** ** The profit function (C1) *)

(** Once the two conditional means are finite, either closure returns the
    spec's profit. *)
Lemma normal_expected_profit_spec (mu sigma pi S E_gt_a E_lt_b : R) :
  Normal.E_V_gt_a mu sigma S = Some E_gt_a ->
  Normal.E_V_lt_b mu sigma S = Some E_lt_b ->
  Normal._expected_profit mu sigma pi S
  = Some (Spec.profit mu pi E_gt_a E_lt_b S).
Proof.
  intros Hu Hl.
  unfold Normal._expected_profit, Normal.profit_ask, Normal.profit_bid.
  rewrite Hu, Hl. reflexivity.
Qed.

Lemma exponential_expected_profit_spec (lam pi EV S E_gt_a E_lt_b : R) :
  Exponential.E_V_gt_a lam EV S = Some E_gt_a ->
  Exponential.E_V_lt_b lam EV S = Some E_lt_b ->
  Exponential._expected_profit lam pi EV S
  = Some (Spec.profit EV pi E_gt_a E_lt_b S).
Proof.
  intros Hu Hl.
  unfold Exponential._expected_profit, Exponential.profit_ask,
    Exponential.profit_bid.
  rewrite Hu, Hl. reflexivity.
Qed.

(** C1.  For both families the closure the solver zeroes is the spec's
    profit function: with center [c] (mu, resp. EV = 1/lam), ask
    [a = c + S/2] and bid [b = c - S/2], at every candidate spread [S] where
    the two conditional means are finite it returns
    [0.5 * (profit_ask + profit_bid)] with
    [profit_ask = (1-pi)(a-c) + pi(a - E_gt_a)] and
    [profit_bid = (1-pi)(c-b) + pi(E_lt_b - b)]. *)
Theorem expected_profit_is_spec_profit :
  (forall mu sigma pi S E_gt_a E_lt_b : R,
      Normal.E_V_gt_a mu sigma S = Some E_gt_a ->
      Normal.E_V_lt_b mu sigma S = Some E_lt_b ->
      Normal._expected_profit mu sigma pi S
      = Some (Spec.profit mu pi E_gt_a E_lt_b S))
  /\
  (forall lam pi S E_gt_a E_lt_b : R,
      let c := 1.0 / lam in
      Exponential.E_V_gt_a lam c S = Some E_gt_a ->
      Exponential.E_V_lt_b lam c S = Some E_lt_b ->
      Exponential._expected_profit lam pi c S
      = Some (Spec.profit c pi E_gt_a E_lt_b S)).
Proof.
  split.
  - intros mu sigma pi S u l. apply normal_expected_profit_spec.
  - intros lam pi S u l c. apply exponential_expected_profit_spec.
Qed.

Lemma expected_profit_is_spec_profit_witness :
  (exists u l,
      Normal.E_V_gt_a 102 7 1.0 = Some u
      /\ Normal.E_V_lt_b 102 7 1.0 = Some l
      /\ Normal._expected_profit 102 7 0.3 1.0
         = Some (Spec.profit 102 0.3 u l 1.0))
  /\
  (exists u l,
      Exponential.E_V_gt_a 0.0075 (1.0 / 0.0075) 1.0 = Some u
      /\ Exponential.E_V_lt_b 0.0075 (1.0 / 0.0075) 1.0 = Some l
      /\ Exponential._expected_profit 0.0075 0.01 (1.0 / 0.0075) 1.0
         = Some (Spec.profit (1.0 / 0.0075) 0.01 u l 1.0)).
Proof.
  split.
  - pose proof (cdf_bounds ((Normal.a 102 1.0 - 102) / 7)) as Hc.
    pose proof (cdf_bounds ((102 - Normal.b 102 1.0) / 7)) as Hc'.
    assert (Hu : exists u, Normal.E_V_gt_a 102 7 1.0 = Some u).
    { unfold Normal.E_V_gt_a, Normal.z_a.
      rewrite (div_defined _ 7) by lra. simpl.
      rewrite div_defined by lra. simpl. eexists. reflexivity. }
    assert (Hl : exists l, Normal.E_V_lt_b 102 7 1.0 = Some l).
    { unfold Normal.E_V_lt_b, Normal.z_b.
      rewrite (div_defined _ 7) by lra. simpl.
      rewrite div_defined by lra. simpl. eexists. reflexivity. }
    destruct Hu as [u Hu]. destruct Hl as [l Hl].
    exists u, l. split; [exact Hu | split; [exact Hl | ]].
    exact (proj1 expected_profit_is_spec_profit 102 7 0.3 1.0 u l Hu Hl).
  - assert (Hlam : 0.0075 <> 0) by lra.
    assert (Hu : exists u,
               Exponential.E_V_gt_a 0.0075 (1.0 / 0.0075) 1.0 = Some u).
    { unfold Exponential.E_V_gt_a. rewrite (div_defined 1 _ Hlam). simpl.
      eexists. reflexivity. }
    assert (Hl : exists l,
               Exponential.E_V_lt_b 0.0075 (1.0 / 0.0075) 1.0 = Some l).
    { unfold Exponential.E_V_lt_b. rewrite div_defined.
      - eexists. reflexivity.
      - intros H. apply exponential_lower_divisor in H.
        unfold Exponential.b in H. lra. }
    destruct Hu as [u Hu]. destruct Hl as [l Hl].
    exists u, l. split; [exact Hu | split; [exact Hl | ]].
    exact (proj2 expected_profit_is_spec_profit 0.0075 0.01 1.0 u l Hu Hl).
Defined.

(** ** The returned triple (C2, C3) *)

Lemma u_nonneg : 0 <= Binary64.u.
Proof.
  unfold Binary64.u. left. apply Rinv_0_lt_compat, pow_lt. lra.
Qed.

(** Three roundings of relative error at most [u]: the sum [a] of [c + h],
    the difference [b] of [c - h], and the difference [d] of [a - b]. *)
Lemma rounded_difference_bound (u c h a b d : R) :
  0 <= u ->
  Rabs (a - (c + h)) <= u * Rabs (c + h) ->
  Rabs (b - (c - h)) <= u * Rabs (c - h) ->
  Rabs (d - (a - b)) <= u * Rabs (a - b) ->
  Rabs (d - 2 * h) <= u * (2 + u) * (Rabs (c + h) + Rabs (c - h)).
Proof.
  intros Hu Ha Hb Hd.
  assert (F1 : Rabs (a - b)
               <= Rabs (c + h) + Rabs (c - h)
                  + Rabs (a - (c + h)) + Rabs (b - (c - h))).
  { unfold Rabs. repeat destruct Rcase_abs; lra. }
  assert (F2 : Rabs (d - 2 * h)
               <= Rabs (d - (a - b))
                  + Rabs (a - (c + h)) + Rabs (b - (c - h))).
  { unfold Rabs. repeat destruct Rcase_abs; lra. }
  set (A := Rabs (c + h)) in *. set (B := Rabs (c - h)) in *.
  assert (F3 : u * Rabs (a - b) <= u * (A + B + u * A + u * B)).
  { apply Rmult_le_compat_l; [exact Hu | lra]. }
  replace (u * (2 + u) * (A + B))
    with (u * (A + B + u * A + u * B) + u * A + u * B) by ring.
  lra.
Qed.

(** The same for the midpoint [m], half of the rounded sum [t] of
    [b + a]. *)
Lemma rounded_midpoint_bound (u c h a b t m : R) :
  0 <= u ->
  Rabs (a - (c + h)) <= u * Rabs (c + h) ->
  Rabs (b - (c - h)) <= u * Rabs (c - h) ->
  Rabs (t - (b + a)) <= u * Rabs (b + a) ->
  m = t / 2 ->
  Rabs (m - c) <= u * (2 + u) / 2 * (Rabs (c + h) + Rabs (c - h)).
Proof.
  intros Hu Ha Hb Ht ->.
  assert (F1 : Rabs (b + a)
               <= Rabs (c + h) + Rabs (c - h)
                  + Rabs (a - (c + h)) + Rabs (b - (c - h))).
  { unfold Rabs. repeat destruct Rcase_abs; lra. }
  assert (F2 : 2 * Rabs (t / 2 - c)
               <= Rabs (t - (b + a))
                  + Rabs (a - (c + h)) + Rabs (b - (c - h))).
  { unfold Rabs. repeat destruct Rcase_abs; lra. }
  set (A := Rabs (c + h)) in *. set (B := Rabs (c - h)) in *.
  assert (F3 : u * Rabs (b + a) <= u * (A + B + u * A + u * B)).
  { apply Rmult_le_compat_l; [exact Hu | lra]. }
  replace (u * (2 + u) / 2 * (A + B))
    with ((u * (A + B + u * A + u * B) + u * A + u * B) / 2) by field.
  lra.
Qed.

Lemma value_finite (x : PrimFloat.float) (s : bool) (m : positive) (e : Z) :
  FloatOps.Prim2SF x = SpecFloat.S754_finite s m e ->
  Binary64.value x
  = (if s then - IZR (Zpos m) else IZR (Zpos m)) * powerRZ 2 e.
Proof. intros H. unfold Binary64.value. rewrite H. reflexivity. Qed.

(** Replaces [Binary64.value x], for a float [x] given in full, by the
    dyadic number it stands for. *)
Ltac float_value x :=
  let v := eval vm_compute in (FloatOps.Prim2SF x) in
  match v with
  | SpecFloat.S754_finite ?s ?m ?e =>
      rewrite (value_finite x s m e) by (vm_compute; reflexivity)
  end.

Ltac float_values :=
  repeat match goal with
         | |- context [Binary64.value ?x] => float_value x
         end.

(** Decides a comparison between dyadic numbers given in full. *)
Ltac dyadic := simpl powerRZ; unfold Rabs; repeat destruct Rcase_abs; lra.

(** Checks, by computing, that the operations on floats given in full were
    correctly rounded. *)
Ltac rounded :=
  unfold Binary64.quotes_rounded, Binary64.halves, Binary64.rounds,
    Binary64.u;
  repeat split; try (vm_compute; reflexivity); float_values; dyadic.

Section triple.
Import PrimFloat.

(** The difference of the returned quotes, when the operations on them are
    correctly rounded. *)
Lemma quotes_difference (c bid ask spread : float) :
  Binary64.quotes_rounded c bid ask spread ->
  Binary64.rounds (ask - bid) (Binary64.value ask - Binary64.value bid) ->
  Rabs (Binary64.value (ask - bid) - Binary64.value spread)
  <= Binary64.u * (2 + Binary64.u)
     * (Rabs (Binary64.value c + Binary64.value spread / 2)
        + Rabs (Binary64.value c - Binary64.value spread / 2)).
Proof.
  intros (_ & (_ & Ha) & (_ & Hb)) (_ & Hd).
  replace (Binary64.value spread)
    with (2 * (Binary64.value spread / 2)) at 1 by field.
  apply (rounded_difference_bound _ _ _ _ _ _ u_nonneg Ha Hb Hd).
Qed.

(** Their midpoint, under the same condition. *)
Lemma quotes_midpoint (c bid ask spread : float) :
  Binary64.quotes_rounded c bid ask spread ->
  Binary64.rounds (bid + ask) (Binary64.value bid + Binary64.value ask) ->
  Binary64.halves (bid + ask) ->
  Rabs (Binary64.value ((bid + ask) / 2) - Binary64.value c)
  <= Binary64.u * (2 + Binary64.u) / 2
     * (Rabs (Binary64.value c + Binary64.value spread / 2)
        + Rabs (Binary64.value c - Binary64.value spread / 2)).
Proof.
  intros (_ & (_ & Ha) & (_ & Hb)) (_ & Ht) (_ & Hm).
  apply (rounded_midpoint_bound _ _ _ _ _ _ _ u_nonneg Ha Hb Ht Hm).
Qed.

(** C2, as the code has it.  The returned numbers are binary64 floats:
    spread is the solver's answer, ask and bid are center + spread/2 and
    center - spread/2 computed in binary64.  So ask - bid is the spread up
    to rounding, not exactly: when each operation is correctly rounded
    (within relative error u = 2^-53 of its exact result, as IEEE 754
    arithmetic is unless it overflows or underflows), the float ask - bid
    is within u (2 + u) (|center + spread/2| + |center - spread/2|) of
    spread. *)
Theorem ask_minus_bid_near_spread
        (fsolve : Binary64.closure -> float -> float) :
  (forall mu sigma pi g bid ask spread,
      Binary64.bid_ask_normal fsolve mu sigma pi g
      = Return (bid, ask, spread) ->
      Binary64.quotes_rounded mu bid ask spread ->
      Binary64.rounds (ask - bid) (Binary64.value ask - Binary64.value bid) ->
      Rabs (Binary64.value (ask - bid) - Binary64.value spread)
      <= Binary64.u * (2 + Binary64.u)
         * (Rabs (Binary64.value mu + Binary64.value spread / 2)
            + Rabs (Binary64.value mu - Binary64.value spread / 2)))
  /\
  (forall lam pi g bid ask spread,
      Binary64.bid_ask_exponential fsolve lam pi g
      = Return (bid, ask, spread) ->
      Binary64.quotes_rounded (1 / lam) bid ask spread ->
      Binary64.rounds (ask - bid) (Binary64.value ask - Binary64.value bid) ->
      Rabs (Binary64.value (ask - bid) - Binary64.value spread)
      <= Binary64.u * (2 + Binary64.u)
         * (Rabs (Binary64.value (1 / lam) + Binary64.value spread / 2)
            + Rabs (Binary64.value (1 / lam) - Binary64.value spread / 2))).
Proof.
  split.
  - intros mu sigma pi g bid ask spread _. apply quotes_difference.
  - intros lam pi g bid ask spread _. apply quotes_difference.
Qed.

(** The two calls of [main], bid_ask_normal(102, 7, 0.3) and
    bid_ask_exponential(0.0075, 0.01) with the default guess 1.0, the
    solver answering 3.377762707288325 resp. 2.123522424775587.  In
    hexadecimal 0.3 is 0x1.3333333333333p-2, 0.0075 is 0x1.eb851eb851eb8p-8
    and 0.01 is 0x1.47ae147ae147bp-7. *)
Lemma ask_minus_bid_near_spread_witness :
  (exists bid ask spread,
      Binary64.bid_ask_normal (fun _ _ => 0x1.b05a8744b9d3dp+1%float)
        102 7 0x1.3333333333333p-2 1
      = Return (bid, ask, spread)
      /\ Rabs (Binary64.value (ask - bid) - Binary64.value spread)
         <= Binary64.u * (2 + Binary64.u)
            * (Rabs (Binary64.value 102 + Binary64.value spread / 2)
               + Rabs (Binary64.value 102 - Binary64.value spread / 2)))
  /\
  (exists bid ask spread,
      Binary64.bid_ask_exponential (fun _ _ => 0x1.0fcf95335dec1p+1%float)
        0x1.eb851eb851eb8p-8 0x1.47ae147ae147bp-7 1
      = Return (bid, ask, spread)
      /\ Rabs (Binary64.value (ask - bid) - Binary64.value spread)
         <= Binary64.u * (2 + Binary64.u)
            * (Rabs (Binary64.value (1 / 0x1.eb851eb851eb8p-8)
                     + Binary64.value spread / 2)
               + Rabs (Binary64.value (1 / 0x1.eb851eb851eb8p-8)
                       - Binary64.value spread / 2))).
Proof.
  split.
  - do 3 eexists. split; [reflexivity | ].
    apply (proj1 (ask_minus_bid_near_spread
                    (fun _ _ => 0x1.b05a8744b9d3dp+1%float))
             102%float 7%float 0x1.3333333333333p-2%float 1%float).
    + reflexivity.
    + rounded.
    + rounded.
  - do 3 eexists. split; [vm_compute; reflexivity | ].
    apply (proj2 (ask_minus_bid_near_spread
                    (fun _ _ => 0x1.0fcf95335dec1p+1%float))
             0x1.eb851eb851eb8p-8%float 0x1.47ae147ae147bp-7%float 1%float).
    + vm_compute. reflexivity.
    + rounded.
    + rounded.
Defined.

(** C2, as the claim states it, fails at the Normal call of [main],
    bid_ask_normal(102, 7, 0.3) with the default guess 1.0, where the solver
    answers 3.377762707288325 = 0x1.b05a8744b9d3dp+1: the returned floats
    are bid = 100.31111864635584 and ask = 103.68888135364416, and
    ask - bid = 3.3777627072883263 is not the returned spread. *)
Lemma ask_minus_bid_not_spread :
  Binary64.bid_ask_normal (fun _ _ => 0x1.b05a8744b9d3dp+1%float)
    102 7 0x1.3333333333333p-2 1
  = Return (0x1.913e95e2ed18bp+6, 0x1.9ec16a1d12e75p+6,
            0x1.b05a8744b9d3dp+1)%float
  /\ (0x1.9ec16a1d12e75p+6 - 0x1.913e95e2ed18bp+6)%float
     = 0x1.b05a8744b9d40p+1%float
  /\ (0x1.9ec16a1d12e75p+6 - 0x1.913e95e2ed18bp+6
      =? 0x1.b05a8744b9d3dp+1)%float = false.
Proof. repeat split; vm_compute; reflexivity. Qed.

(** C3, as the code has it.  The returned bid and ask are the floats
    center - spread/2 and center + spread/2 (center mu for Normal, the float
    1.0 / lam for Exponential), exactly as binary64 operations.  Their
    midpoint is the center up to rounding, not exactly: when each operation
    is correctly rounded (within relative error u = 2^-53 of its exact
    result), the float (bid + ask) / 2 is within
    u (2 + u) / 2 (|center + spread/2| + |center - spread/2|) of the
    center. *)
Theorem quotes_symmetric_around_center
        (fsolve : Binary64.closure -> float -> float) :
  (forall mu sigma pi g bid ask spread,
      Binary64.bid_ask_normal fsolve mu sigma pi g
      = Return (bid, ask, spread) ->
      bid = (mu - spread / 2)%float
      /\ ask = (mu + spread / 2)%float
      /\ (Binary64.quotes_rounded mu bid ask spread ->
          Binary64.rounds (bid + ask)
            (Binary64.value bid + Binary64.value ask) ->
          Binary64.halves (bid + ask) ->
          Rabs (Binary64.value ((bid + ask) / 2) - Binary64.value mu)
          <= Binary64.u * (2 + Binary64.u) / 2
             * (Rabs (Binary64.value mu + Binary64.value spread / 2)
                + Rabs (Binary64.value mu - Binary64.value spread / 2))))
  /\
  (forall lam pi g bid ask spread,
      Binary64.bid_ask_exponential fsolve lam pi g
      = Return (bid, ask, spread) ->
      bid = (1 / lam - spread / 2)%float
      /\ ask = (1 / lam + spread / 2)%float
      /\ (Binary64.quotes_rounded (1 / lam) bid ask spread ->
          Binary64.rounds (bid + ask)
            (Binary64.value bid + Binary64.value ask) ->
          Binary64.halves (bid + ask) ->
          Rabs (Binary64.value ((bid + ask) / 2) - Binary64.value (1 / lam))
          <= Binary64.u * (2 + Binary64.u) / 2
             * (Rabs (Binary64.value (1 / lam) + Binary64.value spread / 2)
                + Rabs (Binary64.value (1 / lam)
                        - Binary64.value spread / 2)))).
Proof.
  split.
  - intros mu sigma pi g bid ask spread H.
    unfold Binary64.bid_ask_normal in H. injection H as <- <- <-.
    repeat split. apply quotes_midpoint.
  - intros lam pi g bid ask spread H.
    unfold Binary64.bid_ask_exponential in H.
    destruct (lam =? 0)%float; [discriminate | ].
    injection H as <- <- <-.
    repeat split. apply quotes_midpoint.
Qed.

(** bid_ask_normal(1, 31, 0.3) with the solver answering
    14.958663417991163, and the Exponential call of [main]. *)
Lemma quotes_symmetric_around_center_witness :
  (exists bid ask spread,
      Binary64.bid_ask_normal (fun _ _ => 0x1.dead5ee784989p+3%float)
        1 31 0x1.3333333333333p-2 1
      = Return (bid, ask, spread)
      /\ bid = (1 - spread / 2)%float
      /\ ask = (1 + spread / 2)%float
      /\ Rabs (Binary64.value ((bid + ask) / 2) - Binary64.value 1)
         <= Binary64.u * (2 + Binary64.u) / 2
            * (Rabs (Binary64.value 1 + Binary64.value spread / 2)
               + Rabs (Binary64.value 1 - Binary64.value spread / 2)))
  /\
  (exists bid ask spread,
      Binary64.bid_ask_exponential (fun _ _ => 0x1.0fcf95335dec1p+1%float)
        0x1.eb851eb851eb8p-8 0x1.47ae147ae147bp-7 1
      = Return (bid, ask, spread)
      /\ bid = (1 / 0x1.eb851eb851eb8p-8 - spread / 2)%float
      /\ ask = (1 / 0x1.eb851eb851eb8p-8 + spread / 2)%float
      /\ Rabs (Binary64.value ((bid + ask) / 2)
               - Binary64.value (1 / 0x1.eb851eb851eb8p-8))
         <= Binary64.u * (2 + Binary64.u) / 2
            * (Rabs (Binary64.value (1 / 0x1.eb851eb851eb8p-8)
                     + Binary64.value spread / 2)
               + Rabs (Binary64.value (1 / 0x1.eb851eb851eb8p-8)
                       - Binary64.value spread / 2))).
Proof.
  split.
  - destruct (proj1 (quotes_symmetric_around_center
                       (fun _ _ => 0x1.dead5ee784989p+3%float))
                1%float 31%float 0x1.3333333333333p-2%float 1%float
                _ _ _ eq_refl) as (Hb & Ha & Hm).
    do 3 eexists. split; [reflexivity | ].
    split; [exact Hb | split; [exact Ha | ]].
    apply Hm; rounded.
  - assert (Hret :
        Binary64.bid_ask_exponential (fun _ _ => 0x1.0fcf95335dec1p+1%float)
          0x1.eb851eb851eb8p-8 0x1.47ae147ae147bp-7 1
        = Return ((1 / 0x1.eb851eb851eb8p-8 - 0x1.0fcf95335dec1p+1 / 2)%float,
                  (1 / 0x1.eb851eb851eb8p-8 + 0x1.0fcf95335dec1p+1 / 2)%float,
                  0x1.0fcf95335dec1p+1%float))
      by reflexivity.
    destruct (proj2 (quotes_symmetric_around_center
                       (fun _ _ => 0x1.0fcf95335dec1p+1%float))
                0x1.eb851eb851eb8p-8%float 0x1.47ae147ae147bp-7%float
                1%float _ _ _ Hret)
      as (Hb & Ha & Hm).
    do 3 eexists. split; [exact Hret | ].
    split; [exact Hb | split; [exact Ha | ]].
    apply Hm; rounded.
Defined.

(** C3, as the claim states it, fails for bid_ask_normal(1, 31, 0.3) when
    the solver answers 14.958663417991163 = 0x1.dead5ee784989p+3 (the
    equilibrium spread, to the last digits): the returned floats are
    bid = -6.4793317089955815 and ask = 8.47933170899558, and
    (bid + ask) / 2 = 0.9999999999999996 is not the center 1. *)
Lemma midpoint_not_center :
  Binary64.bid_ask_normal (fun _ _ => 0x1.dead5ee784989p+3%float)
    1 31 0x1.3333333333333p-2 1
  = Return (- 0x1.9ead5ee784989p+2, 0x1.0f56af73c24c4p+3,
            0x1.dead5ee784989p+3)%float
  /\ ((- 0x1.9ead5ee784989p+2 + 0x1.0f56af73c24c4p+3) / 2)%float
     = 0x1.ffffffffffffcp-1%float
  /\ ((- 0x1.9ead5ee784989p+2 + 0x1.0f56af73c24c4p+3) / 2 =? 1)%float
     = false.
Proof. repeat split; vm_compute; reflexivity. Qed.

End triple.

(** ** The Conditional-Expectation Engine (C4, C5, C7) *)

(** With [sigma <> 0] both standardised thresholds are [S / (2 sigma)]. *)
Lemma normal_z_a (mu sigma S : R) :
  sigma <> 0 -> Normal.z_a mu sigma S = Some ((Normal.a mu S - mu) / sigma).
Proof. intros Hs. unfold Normal.z_a. apply div_defined, Hs. Qed.

Lemma normal_z_b (mu sigma S : R) :
  sigma <> 0 -> Normal.z_b mu sigma S = Some ((mu - Normal.b mu S) / sigma).
Proof. intros Hs. unfold Normal.z_b. apply div_defined, Hs. Qed.

Lemma normal_z_a_z_b (mu sigma S : R) :
  (Normal.a mu S - mu) / sigma = S / (2 * sigma)
  /\ (mu - Normal.b mu S) / sigma = S / (2 * sigma).
Proof.
  unfold Normal.a, Normal.b.
  replace (mu + S / 2 - mu) with (S / 2) by lra.
  replace (mu - (mu - S / 2)) with (S / 2) by lra.
  destruct (Req_dec sigma 0) as [-> | Hs].
  - rewrite Rmult_0_r. unfold Rdiv. rewrite Rinv_0. lra.
  - split; field; exact Hs.
Qed.

(** Over the reals both means are finite at every S when [sigma <> 0]:
    the divisors [1 - Phi(z)] and [Phi(z)] lie strictly between 0 and 1.  (On
    floats [1 - norm.cdf z] is 0.0 from z about 8.3 on.) *)
Lemma normal_means_defined (mu sigma S : R) :
  sigma <> 0 ->
  Normal.E_V_gt_a mu sigma S
  = Some (Spec.normal_upper mu sigma (mu + S / 2))
  /\ Normal.E_V_lt_b mu sigma S
     = Some (Spec.normal_lower mu sigma (mu - S / 2)).
Proof.
  intros Hs0. split.
  - assert (Hden : 1 - norm.cdf ((Normal.a mu S - mu) / sigma) <> 0).
    { pose proof (cdf_bounds ((Normal.a mu S - mu) / sigma)). lra. }
    unfold Normal.E_V_gt_a. rewrite (normal_z_a mu sigma S Hs0). simpl.
    rewrite (div_defined _ _ Hden). reflexivity.
  - assert (Hden : norm.cdf ((mu - Normal.b mu S) / sigma) <> 0).
    { pose proof (cdf_bounds ((mu - Normal.b mu S) / sigma)). lra. }
    unfold Normal.E_V_lt_b. rewrite (normal_z_b mu sigma S Hs0). simpl.
    rewrite (div_defined _ _ Hden). reflexivity.
Qed.

(** Where a mean of the Normal closure has a finite value, it is the value
    of the spec's formula. *)
Lemma normal_upper_mean_value (mu sigma S v : R) :
  Normal.E_V_gt_a mu sigma S = Some v ->
  v = Spec.normal_upper mu sigma (mu + S / 2).
Proof.
  intros H. unfold Normal.E_V_gt_a in H.
  bind_inv H. bind_inv H. injection H as <-.
  unfold Normal.z_a, div in Hv.
  destruct (Req_dec_T sigma 0); [discriminate | ]. injection Hv as <-.
  unfold div in Hv0.
  destruct (Req_dec_T _ 0); [discriminate | ]. injection Hv0 as <-.
  reflexivity.
Qed.

Lemma normal_lower_mean_value (mu sigma S v : R) :
  Normal.E_V_lt_b mu sigma S = Some v ->
  v = Spec.normal_lower mu sigma (mu - S / 2).
Proof.
  intros H. unfold Normal.E_V_lt_b in H.
  bind_inv H. bind_inv H. injection H as <-.
  unfold Normal.z_b, div in Hv.
  destruct (Req_dec_T sigma 0); [discriminate | ]. injection Hv as <-.
  unfold div in Hv0.
  destruct (Req_dec_T _ 0); [discriminate | ]. injection Hv0 as <-.
  reflexivity.
Qed.

(** C4.  Normal(mu, sigma) with sigma > 0: at the thresholds a = mu + S/2
    and b = mu - S/2 of any candidate spread S, a conditional mean the
    closure uses, wherever it has a finite value, is the spec's
    truncated-normal formula,
    E[V | V > a] = mu + sigma phi(z_a) / (1 - Phi(z_a)), z_a = (a - mu)/sigma,
    E[V | V < b] = mu - sigma phi(z_b) / Phi(z_b), z_b = (mu - b)/sigma. *)
Theorem normal_conditional_means (mu sigma S : R) :
  0 < sigma ->
  let a := mu + S / 2 in
  let b := mu - S / 2 in
  (forall v, Normal.E_V_gt_a mu sigma S = Some v ->
             v = Spec.normal_upper mu sigma a)
  /\ (forall v, Normal.E_V_lt_b mu sigma S = Some v ->
                v = Spec.normal_lower mu sigma b).
Proof.
  intros _ a b. split; intros v H.
  - apply normal_upper_mean_value, H.
  - apply normal_lower_mean_value, H.
Qed.

(** At the first candidate spread of [main]'s Normal call both means are
    finite. *)
Lemma normal_conditional_means_witness :
  exists v w,
    Normal.E_V_gt_a 102 7 1.0 = Some v
    /\ Normal.E_V_lt_b 102 7 1.0 = Some w
    /\ v = Spec.normal_upper 102 7 (102 + 1.0 / 2)
    /\ w = Spec.normal_lower 102 7 (102 - 1.0 / 2).
Proof.
  assert (Hs : 0 < 7) by lra.
  assert (Hs0 : 7 <> 0) by lra.
  destruct (normal_means_defined 102 7 1.0 Hs0) as [Hu Hl].
  destruct (normal_conditional_means 102 7 1.0 Hs) as [Cu Cl].
  do 2 eexists. split; [exact Hu | split; [exact Hl | ]].
  split; [exact (Cu _ Hu) | exact (Cl _ Hl)].
Defined.

(** C5.  Exponential(lam) with lam > 0: the upper conditional mean of the
    closure is a + 1/lam at its threshold a, whatever the candidate spread,
    and every real threshold is the ask of some candidate spread; no solver
    takes part in it. *)
Theorem exponential_upper_mean_memoryless (lam EV : R) :
  0 < lam ->
  (forall S : R,
      Exponential.E_V_gt_a lam EV S = Some (Exponential.a EV S + 1 / lam))
  /\
  (forall a : R,
      Exponential.a EV (2 * (a - EV)) = a
      /\ Exponential.E_V_gt_a lam EV (2 * (a - EV))
         = Some (Spec.exponential_upper lam a)).
Proof.
  intros Hlam.
  assert (Hl0 : lam <> 0) by lra.
  assert (HS : forall S,
             Exponential.E_V_gt_a lam EV S = Some (Exponential.a EV S + 1 / lam)).
  { intros S. unfold Exponential.E_V_gt_a.
    rewrite (div_defined 1 lam Hl0). reflexivity. }
  split; [exact HS | ].
  intros a.
  assert (Ha : Exponential.a EV (2 * (a - EV)) = a)
    by (unfold Exponential.a; lra).
  split; [exact Ha | ].
  rewrite HS, Ha. reflexivity.
Qed.

Lemma exponential_upper_mean_memoryless_witness :
  Exponential.E_V_gt_a 0.0075 (1.0 / 0.0075) 1.0
  = Some (Exponential.a (1.0 / 0.0075) 1.0 + 1 / 0.0075).
Proof.
  assert (Hlam : 0 < 0.0075) by lra.
  exact (proj1 (exponential_upper_mean_memoryless
                  0.0075 (1.0 / 0.0075) Hlam) 1.0).
Defined.

Lemma exponential_lower_defined (lam EV S : R) :
  lam <> 0 -> Exponential.b EV S <> 0 ->
  Exponential.E_V_lt_b lam EV S
  = Some (Spec.exponential_lower lam (Exponential.b EV S)).
Proof.
  intros Hlam Hb. unfold Exponential.E_V_lt_b. apply div_defined.
  intros H. apply exponential_lower_divisor in H. tauto.
Qed.

Lemma exponential_lower_at_zero (lam EV S : R) :
  Exponential.b EV S = 0 -> Exponential.E_V_lt_b lam EV S = None.
Proof.
  intros Hb. unfold Exponential.E_V_lt_b.
  assert (Hd : lam * (1 - np.exp (- lam * Exponential.b EV S)) = 0)
    by (apply exponential_lower_divisor; now right).
  rewrite Hd. apply div_by_zero.
Qed.

Lemma exponential_profit_at_zero (lam pi EV S : R) :
  Exponential.b EV S = 0 -> Exponential._expected_profit lam pi EV S = None.
Proof.
  intros Hb.
  unfold Exponential._expected_profit, Exponential.profit_bid.
  rewrite (exponential_lower_at_zero lam EV S Hb). simpl.
  destruct (Exponential.profit_ask lam pi EV S); reflexivity.
Qed.





(** ** Zero parameters (C6) *)

(** With [sigma = 0] the Normal closure has no finite value anywhere. *)
Lemma normal_profit_sigma_zero (mu pi S : R) :
  Normal._expected_profit mu 0 pi S = None.
Proof.
  unfold Normal._expected_profit, Normal.profit_ask, Normal.E_V_gt_a,
    Normal.z_a.
  rewrite div_by_zero. reflexivity.
Qed.

Lemma bid_ask_normal_total (fsolve : (R -> num) -> R -> R)
      (mu sigma pi g : R) :
  let s := fsolve (Normal._expected_profit mu sigma pi) g in
  bid_ask_normal fsolve mu sigma pi g
  = Return (Quote (mu - s / 2) (mu + s / 2) s).
Proof. reflexivity. Qed.

Lemma bid_ask_exponential_lam_zero (fsolve : (R -> num) -> R -> R)
      (pi g : R) :
  bid_ask_exponential fsolve 0 pi g = Raise ZeroDivisionError.
Proof.
  unfold bid_ask_exponential.
  destruct (Req_dec_T 0 0) as [_ | N]; [reflexivity | now elim N].
Qed.

Lemma bid_ask_exponential_lam_nonzero (fsolve : (R -> num) -> R -> R)
      (lam pi g : R) :
  lam <> 0 ->
  let EV := 1.0 / lam in
  let s := fsolve (Exponential._expected_profit lam pi EV) g in
  bid_ask_exponential fsolve lam pi g
  = Return (Quote (EV - s / 2) (EV + s / 2) s).
Proof.
  intros Hlam. unfold bid_ask_exponential.
  destruct (Req_dec_T lam 0) as [E | _]; [tauto | reflexivity].
Qed.

(** C6, as the code has it.  Neither entry point validates its parameters.
    With lam = 0, [bid_ask_exponential] raises ZeroDivisionError at
    [EV = 1.0 / lam], before any solver call.  With sigma = 0,
    [bid_ask_normal] raises nothing: the profit closure has no finite value
    at any S, the solver is called on it all the same, and the triple built
    from the solver's answer is returned. *)
Theorem zero_parameter_behaviour (fsolve : (R -> num) -> R -> R) :
  (forall pi g : R,
      bid_ask_exponential fsolve 0 pi g = Raise ZeroDivisionError)
  /\
  (forall mu pi g : R,
      (forall S : R, Normal._expected_profit mu 0 pi S = None)
      /\ (let s := fsolve (Normal._expected_profit mu 0 pi) g in
          bid_ask_normal fsolve mu 0 pi g
          = Return (Quote (mu - s / 2) (mu + s / 2) s))
      /\ ~ reports_error (bid_ask_normal fsolve mu 0 pi g)).
Proof.
  split.
  - intros pi g. apply bid_ask_exponential_lam_zero.
  - intros mu pi g. split; [ | split].
    + intros S. apply normal_profit_sigma_zero.
    + apply bid_ask_normal_total.
    + intros [e He]. rewrite bid_ask_normal_total in He. discriminate.
Qed.

(** C6, as the claim states it, fails for Normal(mu = 102, sigma = 0) with
    pi = 0.3 and the default guess: no error is reported, and with the
    one-step secant solver the guess itself comes back as the spread. *)
Lemma sigma_zero_not_reported :
  ~ reports_error (bid_ask_normal secant_step 102 0 0.3 1.0)
  /\ bid_ask_normal secant_step 102 0 0.3 1.0
     = Return (Quote (102 - 1.0 / 2) (102 + 1.0 / 2) 1.0).
Proof.
  assert (Hret : bid_ask_normal secant_step 102 0 0.3 1.0
                 = Return (Quote (102 - 1.0 / 2) (102 + 1.0 / 2) 1.0)).
  { rewrite bid_ask_normal_total. unfold secant_step.
    rewrite normal_profit_sigma_zero. reflexivity. }
  split; [ | exact Hret].
  intros [e He]. rewrite Hret in He. discriminate.
Qed.

(** ** The degenerate case pi = 0 (C8) *)





Lemma exponential_profit_defined (lam pi EV S : R) :
  lam <> 0 -> Exponential.b EV S <> 0 ->
  exists r, Exponential._expected_profit lam pi EV S = Some r.
Proof.
  intros Hlam Hb.
  unfold Exponential._expected_profit, Exponential.profit_ask,
    Exponential.profit_bid, Exponential.E_V_gt_a.
  rewrite (div_defined 1 lam Hlam). simpl.
  rewrite (exponential_lower_defined lam EV S Hlam Hb). simpl.
  eexists. reflexivity.
Qed.








(** ** The two sides of the Normal quote (C10) *)

(** The per-side profits of the Normal closure, where sigma <> 0, in terms of
    z = S / (2 sigma): the ask side divides by 1 - Phi(z), the bid side by
    Phi(z). *)
Lemma normal_profit_ask_value (mu sigma pi S : R) :
  sigma <> 0 ->
  let z := S / (2 * sigma) in
  1 - norm.cdf z <> 0 ->
  Normal.profit_ask mu sigma pi S
  = Some ((1 - pi) * (S / 2)
          + pi * (S / 2 - sigma * norm.pdf z / (1 - norm.cdf z))).
Proof.
  intros Hs z Hden.
  destruct (normal_z_a_z_b mu sigma S) as [Hza _].
  unfold Normal.profit_ask, Normal.E_V_gt_a.
  rewrite (normal_z_a mu sigma S Hs). simpl. rewrite Hza. fold z.
  rewrite (div_defined _ _ Hden). simpl.
  f_equal. unfold Normal.a. lra.
Qed.

Lemma normal_profit_bid_value (mu sigma pi S : R) :
  sigma <> 0 ->
  let z := S / (2 * sigma) in
  norm.cdf z <> 0 ->
  Normal.profit_bid mu sigma pi S
  = Some ((1 - pi) * (S / 2)
          + pi * (S / 2 - sigma * norm.pdf z / norm.cdf z)).
Proof.
  intros Hs z Hden.
  destruct (normal_z_a_z_b mu sigma S) as [_ Hzb].
  unfold Normal.profit_bid, Normal.E_V_lt_b.
  rewrite (normal_z_b mu sigma S Hs). simpl. rewrite Hzb. fold z.
  rewrite (div_defined _ _ Hden). simpl.
  f_equal. unfold Normal.b. lra.
Qed.

(** For a positive spread the bid side divides by the larger number. *)
Lemma normal_mills_ratios (sigma z : R) :
  0 < sigma -> 0 < z ->
  sigma * norm.pdf z / norm.cdf z < sigma * norm.pdf z / (1 - norm.cdf z).
Proof.
  intros Hs Hz.
  pose proof (cdf_gt_half z Hz) as Hhalf.
  pose proof (cdf_bounds z) as Hc.
  pose proof (pdf_pos z) as Hp.
  assert (Hnum : 0 < sigma * norm.pdf z) by (apply Rmult_lt_0_compat; lra).
  unfold Rdiv. apply Rmult_lt_compat_l; [exact Hnum | ].
  apply Rinv_lt_contravar; [ | lra].
  apply Rmult_lt_0_compat; lra.
Qed.

(** Whenever sigma > 0, pi > 0 and S > 0 both sides are finite and the ask
    side is strictly below the bid side. *)
Lemma normal_sides_differ (mu sigma pi S : R) :
  0 < sigma -> 0 < pi -> 0 < S ->
  exists pa pb,
    Normal.profit_ask mu sigma pi S = Some pa
    /\ Normal.profit_bid mu sigma pi S = Some pb
    /\ pa < pb.
Proof.
  intros Hs Hpi HS.
  assert (Hs0 : sigma <> 0) by lra.
  assert (Hz : 0 < S / (2 * sigma)) by (apply Rdiv_lt_0_compat; lra).
  pose proof (cdf_bounds (S / (2 * sigma))) as Hc.
  assert (Hden : 1 - norm.cdf (S / (2 * sigma)) <> 0) by lra.
  assert (Hc0 : norm.cdf (S / (2 * sigma)) <> 0) by lra.
  pose proof (normal_mills_ratios sigma _ Hs Hz) as Hm.
  do 2 eexists.
  split; [apply (normal_profit_ask_value mu sigma pi S Hs0 Hden) | ].
  split; [apply (normal_profit_bid_value mu sigma pi S Hs0 Hc0) | ].
  apply Rplus_lt_compat_l, Rmult_lt_compat_l; [exact Hpi | lra].
Qed.

(** The lower-truncated normal mean, E[V | V < b] = mu - sigma phi(beta) /
    Phi(beta) with beta = (b - mu)/sigma, mirrors the upper one: with it the
    two sides of the quote would earn the same. *)
Lemma truncated_lower_mean_mirrors_upper (mu sigma S : R) :
  let a := mu + S / 2 in
  let b := mu - S / 2 in
  let beta := (b - mu) / sigma in
  (mu - sigma * norm.pdf beta / norm.cdf beta) - b
  = a - Spec.normal_upper mu sigma a.
Proof.
  intros a b beta. unfold Spec.normal_upper.
  assert (Hb : beta = - ((a - mu) / sigma)).
  { unfold beta, a, b, Rdiv. lra. }
  rewrite Hb, pdf_even, cdf_opp. unfold a, b. lra.
Qed.

(** What the closure calls E[V | V < b] lies above b as soon as
    S >= 2 sigma: it is not a mean of values below b. *)
Lemma normal_lower_mean_above_threshold (mu sigma S : R) :
  0 < sigma -> 2 * sigma <= S ->
  exists e, Normal.E_V_lt_b mu sigma S = Some e /\ Normal.b mu S < e.
Proof.
  intros Hs HS.
  assert (Hs0 : sigma <> 0) by lra.
  destruct (normal_z_a_z_b mu sigma S) as [_ Hzb].
  set (z := S / (2 * sigma)) in *.
  assert (Hz : 1 <= z).
  { unfold z. apply Rmult_le_reg_r with (2 * sigma); [lra | ].
    unfold Rdiv. rewrite Rmult_assoc, Rinv_l by lra. lra. }
  assert (Hhalf : 1 / 2 < norm.cdf z) by (apply cdf_gt_half; lra).
  assert (Hc0 : norm.cdf z <> 0) by lra.
  unfold Normal.E_V_lt_b. rewrite (normal_z_b mu sigma S Hs0). simpl.
  rewrite Hzb, (div_defined _ _ Hc0). simpl.
  eexists. split; [reflexivity | ].
  assert (Hp : norm.pdf z < 1 / 2).
  { apply Rle_lt_trans with (norm.pdf 0); [ | exact pdf_0_lt_half].
    apply pdf_decreasing. rewrite Rabs_R0. apply Rabs_pos. }
  pose proof (pdf_pos z) as Hp0.
  assert (Hq : norm.pdf z / norm.cdf z < 1).
  { apply Rmult_lt_reg_r with (norm.cdf z); [lra | ].
    unfold Rdiv. rewrite Rmult_assoc, Rinv_l by lra. lra. }
  assert (Hsq : sigma * norm.pdf z / norm.cdf z < sigma * 1).
  { unfold Rdiv in *. rewrite Rmult_assoc.
    apply Rmult_lt_compat_l; assumption. }
  assert (HbS : Normal.b mu S = mu - sigma * z).
  { unfold Normal.b, z. field. exact Hs0. }
  rewrite HbS.
  assert (sigma * 1 <= sigma * z) by (apply Rmult_le_compat_l; lra).
  lra.
Qed.

(** C10 at Normal(mu = 102, sigma = 7), pi = 0.3 and the default guess
    S = 1.0, the first point the solver evaluates: the two per-side profits
    are finite and differ, the ask side being the smaller, and the averaged
    profit the closure returns is above the one-sided formula
    (1-pi) S/2 + pi (S/2 - sigma phi(z) / (1 - Phi(z))), z = S / (2 sigma). *)
Theorem normal_sides_asymmetric_at_default_guess :
  let z := 1.0 / (2 * 7) in
  let one_sided :=
    (1 - 0.3) * (1.0 / 2)
    + 0.3 * (1.0 / 2 - 7 * norm.pdf z / (1 - norm.cdf z)) in
  exists pa pb r,
    Normal.profit_ask 102 7 0.3 1.0 = Some pa
    /\ Normal.profit_bid 102 7 0.3 1.0 = Some pb
    /\ Normal._expected_profit 102 7 0.3 1.0 = Some r
    /\ pa = one_sided /\ pa < pb /\ one_sided < r.
Proof.
  intros z one_sided.
  assert (Hs : 7 <> 0) by lra.
  pose proof (cdf_bounds z) as Hc.
  assert (Hpos : 0 < z) by (unfold z; lra).
  assert (Hden : 1 - norm.cdf z <> 0) by lra.
  assert (Hc0 : norm.cdf z <> 0) by lra.
  pose proof (normal_profit_ask_value 102 7 0.3 1.0 Hs Hden) as Ha.
  pose proof (normal_profit_bid_value 102 7 0.3 1.0 Hs Hc0) as Hb.
  assert (H7 : 0 < 7) by lra.
  pose proof (normal_mills_ratios 7 z H7 Hpos) as Hm.
  do 3 eexists. split; [exact Ha | split; [exact Hb | split]].
  - unfold Normal._expected_profit. rewrite Ha, Hb. reflexivity.
  - fold z. unfold one_sided. repeat split; lra.
Qed.

(** ** Monotonicity of the roots in pi *)

(** *** Exponential: the lower mean through x / (1 - e^-x) *)

Lemma one_minus_exp_sign (x : R) :
  (0 < x -> 0 < 1 - exp (- x)) /\ (x < 0 -> 1 - exp (- x) < 0).
Proof.
  split; intros Hx.
  - assert (H : exp (- x) < exp 0) by (apply exp_increasing; lra).
    rewrite exp_0 in H. lra.
  - assert (H : exp 0 < exp (- x)) by (apply exp_increasing; lra).
    rewrite exp_0 in H. lra.
Qed.

Lemma exp_ge_1_plus (x : R) : 1 + x <= exp x.
Proof.
  destruct (Req_dec x 0) as [-> | N].
  - rewrite exp_0. lra.
  - left. apply exp_ineq1, N.
Qed.

Lemma hfun_pos (x : R) : x <> 0 -> 0 < hfun x.
Proof.
  intros Hx. unfold hfun.
  destruct (one_minus_exp_sign x) as [Hp Hn].
  destruct (Rtotal_order x 0) as [Hlt | [E | Hgt]]; [ | tauto | ].
  - specialize (Hn Hlt).
    replace (x / (1 - exp (- x))) with ((- x) / (- (1 - exp (- x))))
      by (field; lra).
    apply Rdiv_lt_0_compat; lra.
  - specialize (Hp Hgt). apply Rdiv_lt_0_compat; lra.
Qed.

Lemma hfun_derivative (x : R) : x <> 0 -> derivable_pt_lim hfun x (hfun' x).
Proof.
  intros Hx. unfold hfun, hfun'.
  assert (Hd : 1 - exp (- x) <> 0).
  { destruct (one_minus_exp_sign x) as [Hp Hn].
    destruct (Rtotal_order x 0) as [Hlt | [E | Hgt]]; [ | tauto | ].
    - specialize (Hn Hlt). lra.
    - specialize (Hp Hgt). lra. }
  assert (pr : derivable_pt (fun y => y / (1 - exp (- y))) x) by (reg; exact Hd).
  apply derive_pt_eq_1 with pr. reg.
  unfold comp, Rsqr. cbv beta. field. exact Hd.
Qed.

Lemma hfun'_nonneg (x : R) : x <> 0 -> 0 <= hfun' x.
Proof.
  intros Hx. unfold hfun'.
  assert (Hd : 1 - exp (- x) <> 0).
  { destruct (one_minus_exp_sign x) as [Hp Hn].
    destruct (Rtotal_order x 0) as [Hlt | [E | Hgt]]; [ | tauto | ].
    - specialize (Hn Hlt). lra.
    - specialize (Hp Hgt). lra. }
  apply Rmult_le_pos.
  - pose proof (exp_ge_1_plus x) as H1.
    pose proof (exp_pos (- x)) as H2.
    assert (H3 : exp (- x) * exp x = 1)
      by (rewrite <- exp_plus; replace (- x + x) with 0 by lra; apply exp_0).
    assert (exp (- x) * (1 + x) <= exp (- x) * exp x)
      by (apply Rmult_le_compat_l; lra).
    lra.
  - left. apply Rinv_0_lt_compat.
    destruct (Rtotal_order (1 - exp (- x)) 0) as [Hlt | [E | Hgt]]; [ | tauto | ].
    + replace ((1 - exp (- x)) * (1 - exp (- x)))
        with ((- (1 - exp (- x))) * (- (1 - exp (- x)))) by ring.
      apply Rmult_lt_0_compat; lra.
    + apply Rmult_lt_0_compat; lra.
Qed.

Lemma hfun_vs_1 (x : R) : (x < 0 -> hfun x <= 1) /\ (0 < x -> 1 <= hfun x).
Proof.
  destruct (one_minus_exp_sign x) as [Hp Hn].
  pose proof (exp_ge_1_plus (- x)) as He.
  unfold hfun. split; intros Hx.
  - specialize (Hn Hx).
    apply Rmult_le_reg_r with (- (1 - exp (- x))); [lra | ].
    replace (x / (1 - exp (- x)) * - (1 - exp (- x))) with (- x)
      by (field; lra).
    lra.
  - specialize (Hp Hx).
    apply Rmult_le_reg_r with (1 - exp (- x)); [lra | ].
    replace (x / (1 - exp (- x)) * (1 - exp (- x))) with x by (field; lra).
    lra.
Qed.

Lemma hfun_increasing_same_sign (x y : R) :
  x < y -> (0 < x \/ y < 0) -> hfun x <= hfun y.
Proof.
  intros Hxy Hs.
  destruct (MVT_cor2 hfun hfun' x y Hxy) as (c & Hc & Hcr).
  - intros c Hc. apply hfun_derivative. lra.
  - assert (Hc0 : c <> 0) by lra.
    pose proof (hfun'_nonneg c Hc0) as Hn.
    assert (0 <= hfun' c * (y - x)) by (apply Rmult_le_pos; lra).
    lra.
Qed.

Lemma hfun_increasing (x y : R) :
  x <> 0 -> y <> 0 -> x <= y -> hfun x <= hfun y.
Proof.
  intros Hx Hy Hxy.
  destruct (Req_dec x y) as [-> | N]; [lra | ].
  assert (Hlt : x < y) by lra.
  destruct (Rtotal_order x 0) as [Hx0 | [E | Hx0]]; [ | tauto | ].
  - destruct (Rtotal_order y 0) as [Hy0 | [E | Hy0]]; [ | tauto | ].
    + apply hfun_increasing_same_sign; [exact Hlt | now right].
    + pose proof (proj1 (hfun_vs_1 x) Hx0).
      pose proof (proj2 (hfun_vs_1 y) Hy0). lra.
  - apply hfun_increasing_same_sign; [exact Hlt | now left].
Qed.

Lemma exponential_profit_value (lam pi S : R) :
  lam <> 0 ->
  let EV := 1.0 / lam in
  Exponential.b EV S <> 0 ->
  Exponential._expected_profit lam pi EV S
  = Some (0.5 * ((1 - pi) * S
                 - pi * (hfun (lam * Exponential.b EV S) / lam))).
Proof.
  intros Hlam EV Hb.
  unfold Exponential._expected_profit, Exponential.profit_ask,
    Exponential.profit_bid, Exponential.E_V_gt_a.
  rewrite (div_defined 1 lam Hlam). simpl.
  rewrite (exponential_lower_defined lam EV S Hlam Hb). simpl.
  f_equal. unfold Spec.exponential_lower, hfun.
  set (b := Exponential.b EV S) in *.
  replace (- lam * b) with (- (lam * b)) by ring.
  assert (Hx : lam * b <> 0).
  { intros H. apply Rmult_integral in H. tauto. }
  assert (Hd : 1 - exp (- (lam * b)) <> 0).
  { intros H. assert (He : exp (- (lam * b)) = 1) by lra.
    apply exp_eq_1 in He. lra. }
  set (E := exp (- (lam * b))) in *.
  assert (HS : S = 2 * (EV - b)) by (unfold b, Exponential.b; lra).
  unfold Exponential.a. fold b. rewrite HS.
  field. split; assumption.
Qed.

Lemma exponential_profit_finite (lam pi EV S r : R) :
  Exponential._expected_profit lam pi EV S = Some r ->
  Exponential.b EV S <> 0.
Proof.
  intros H Hb. rewrite (exponential_profit_at_zero lam pi EV S Hb) in H.
  discriminate.
Qed.

(** Roots of the Exponential profit grow with pi. *)
Lemma exponential_root_monotone (lam pi1 pi2 s1 s2 : R) :
  0 < lam -> 0 <= pi1 -> pi1 < pi2 -> pi2 < 1 ->
  Exponential._expected_profit lam pi1 (1.0 / lam) s1 = Some 0 ->
  Exponential._expected_profit lam pi2 (1.0 / lam) s2 = Some 0 ->
  s1 < s2.
Proof.
  intros Hlam Hp1 Hp12 Hp2 H1 H2.
  assert (Hl0 : lam <> 0) by lra.
  pose proof (exponential_profit_finite _ _ _ _ _ H1) as Hb1.
  pose proof (exponential_profit_finite _ _ _ _ _ H2) as Hb2.
  rewrite (exponential_profit_value lam pi1 s1 Hl0 Hb1) in H1.
  rewrite (exponential_profit_value lam pi2 s2 Hl0 Hb2) in H2.
  injection H1 as H1. injection H2 as H2.
  set (x1 := lam * Exponential.b (1.0 / lam) s1) in *.
  set (x2 := lam * Exponential.b (1.0 / lam) s2) in *.
  assert (Hx1 : x1 <> 0).
  { intros H. apply Rmult_integral in H. tauto. }
  assert (Hx2 : x2 <> 0).
  { intros H. apply Rmult_integral in H. tauto. }
  pose proof (hfun_pos x1 Hx1) as Hh1.
  pose proof (hfun_pos x2 Hx2) as Hh2.
  assert (Hq1 : 0 < hfun x1 / lam) by (apply Rdiv_lt_0_compat; lra).
  assert (Hq2 : 0 < hfun x2 / lam) by (apply Rdiv_lt_0_compat; lra).
  assert (E1 : (1 - pi1) * s1 = pi1 * (hfun x1 / lam)) by lra.
  assert (E2 : (1 - pi2) * s2 = pi2 * (hfun x2 / lam)) by lra.
  destruct (Rlt_dec s1 s2) as [Hlt | Hge]; [exact Hlt | exfalso].
  assert (Hs : s2 <= s1) by lra.
  assert (Hs2 : 0 < s2).
  { assert (0 < pi2 * (hfun x2 / lam)) by (apply Rmult_lt_0_compat; lra).
    assert (Hprod : 0 < (1 - pi2) * s2) by lra.
    destruct (Rlt_dec 0 s2) as [Hpos | Hneg]; [exact Hpos | exfalso].
    assert ((1 - pi2) * s2 <= (1 - pi2) * 0)
      by (apply Rmult_le_compat_l; lra).
    lra. }
  assert (Hx : x1 <= x2).
  { unfold x1, x2, Exponential.b.
    apply Rmult_le_compat_l; lra. }
  pose proof (hfun_increasing x1 x2 Hx1 Hx2 Hx) as Hh.
  assert (Hq : hfun x1 / lam <= hfun x2 / lam).
  { unfold Rdiv. apply Rmult_le_compat_r; [ | exact Hh].
    left. apply Rinv_0_lt_compat, Hlam. }
  assert (A1 : pi2 * (hfun x1 / lam) <= pi2 * (hfun x2 / lam))
    by (apply Rmult_le_compat_l; lra).
  assert (A2 : pi1 * (hfun x1 / lam) < pi2 * (hfun x1 / lam))
    by (apply Rmult_lt_compat_r; lra).
  assert (A3 : (1 - pi1) * s2 <= (1 - pi1) * s1)
    by (apply Rmult_le_compat_l; lra).
  assert (A4 : (1 - pi2) * s2 < (1 - pi1) * s2)
    by (apply Rmult_lt_compat_r; lra).
  lra.
Qed.

(** *** Normal: the derivative of the CDF *)

Lemma cdf_derivative (z : R) : derivable_pt_lim norm.cdf z (norm.pdf z).
Proof.
  replace (norm.pdf z) with (0 + norm.pdf z) by lra.
  apply (derivable_pt_lim_plus (fct_cte (1 / 2)) pdf_integral).
  - apply derivable_pt_lim_const.
  - apply pdf_integral_derivative.
Qed.

(** *** The lower Mills bound: z phi(z) <= (1 + z^2) (1 - Phi(z)) *)

Lemma mills_tail_derivative (z : R) :
  derivable_pt_lim mills_tail z (mills_tail' z).
Proof.
  unfold mills_tail, mills_tail', norm.pdf.
  pose proof (one_plus_sqr_pos z) as Hz.
  pose proof sqrt_2PI_gt_2 as Hs.
  assert (pr : derivable_pt
                 (fun y => y * (exp (- (y * y) / 2) / sqrt (2 * PI))
                           / (1 + y * y)) z).
  { reg. lra. }
  apply derive_pt_eq_1 with pr. reg; [ | lra].
  unfold comp, Rsqr, Rdiv. cbv beta. field. split; lra.
Qed.

Lemma mills_gap_derivative (z : R) :
  derivable_pt_lim mills_gap z (mills_gap' z).
Proof.
  unfold mills_gap'.
  replace (- (2 * norm.pdf z / ((1 + z * z) * (1 + z * z))))
    with ((0 - norm.pdf z) - mills_tail' z).
  - apply (derivable_pt_lim_minus (fct_cte 1 - norm.cdf)%F mills_tail).
    + apply (derivable_pt_lim_minus (fct_cte 1) norm.cdf).
      * apply derivable_pt_lim_const.
      * apply cdf_derivative.
    + apply mills_tail_derivative.
  - unfold mills_tail'. pose proof (one_plus_sqr_pos z). field. lra.
Qed.

Lemma mills_gap_decreasing (x y : R) : x <= y -> mills_gap y <= mills_gap x.
Proof.
  intros Hxy. destruct (Req_dec x y) as [-> | N]; [lra | ].
  assert (Hlt : x < y) by lra.
  destruct (MVT_cor2 mills_gap mills_gap' x y Hlt) as (c & Hc & _).
  - intros c _. apply mills_gap_derivative.
  - assert (Hneg : mills_gap' c <= 0).
    { unfold mills_gap'. pose proof (pdf_pos c). pose proof (one_plus_sqr_pos c).
      assert (0 < 2 * norm.pdf c / ((1 + c * c) * (1 + c * c))).
      { apply Rdiv_lt_0_compat; [lra | apply Rmult_lt_0_compat; lra]. }
      lra. }
    assert (mills_gap' c * (y - x) <= 0 * (y - x))
      by (apply Rmult_le_compat_r; lra).
    lra.
Qed.

Lemma pdf_le_inv (y : R) : 0 < y -> norm.pdf y < / y.
Proof.
  intros Hy. unfold norm.pdf.
  pose proof sqrt_2PI_gt_2 as Hs.
  pose proof (exp_pos (- (y * y) / 2)) as He.
  assert (He1 : exp (- (y * y) / 2) * exp (y * y / 2) = 1).
  { rewrite <- exp_plus. replace (- (y * y) / 2 + y * y / 2) with 0 by lra.
    apply exp_0. }
  pose proof (exp_ge_1_plus (y * y / 2)) as He2.
  assert (Hy2 : 0 < y * y) by (apply Rmult_lt_0_compat; lra).
  assert (Hlin : y < 1 + y * y / 2).
  { assert (0 <= (y - 1) * (y - 1)) by (apply Rle_0_sqr). lra. }
  assert (Hexp : y < exp (y * y / 2)) by lra.
  assert (Hprod : exp (- (y * y) / 2) * y < 1).
  { rewrite <- He1. apply Rmult_lt_compat_l; lra. }
  assert (Hinv : exp (- (y * y) / 2) < / y).
  { apply Rmult_lt_reg_r with y; [lra | ]. rewrite Rinv_l by lra. exact Hprod. }
  apply Rlt_trans with (exp (- (y * y) / 2)); [ | exact Hinv].
  apply Rmult_lt_reg_r with (sqrt (2 * PI)); [lra | ].
  unfold Rdiv. rewrite Rmult_assoc, Rinv_l by lra.
  rewrite Rmult_1_r.
  assert (exp (- (y * y) / 2) * 1 < exp (- (y * y) / 2) * sqrt (2 * PI))
    by (apply Rmult_lt_compat_l; lra).
  lra.
Qed.

Lemma mills_gap_nonneg (z : R) : 0 <= mills_gap z.
Proof.
  destruct (Rle_dec 0 (mills_gap z)) as [H | H]; [exact H | exfalso].
  set (c := - mills_gap z). assert (Hc : 0 < c) by (unfold c; lra).
  set (y := Rmax z (/ c) + 1).
  assert (Hyz : z <= y) by (unfold y; pose proof (Rmax_l z (/ c)); lra).
  assert (Hyc : / c < y) by (unfold y; pose proof (Rmax_r z (/ c)); lra).
  assert (Hic : 0 < / c) by (apply Rinv_0_lt_compat, Hc).
  assert (Hy : 0 < y) by lra.
  pose proof (mills_gap_decreasing z y Hyz) as Hdec.
  pose proof (pdf_le_inv y Hy) as Hp.
  assert (Hiy : / y < c).
  { rewrite <- (Rinv_inv c). apply Rinv_lt_contravar; [ | exact Hyc].
    apply Rmult_lt_0_compat; lra. }
  assert (Htail : mills_tail y <= norm.pdf y).
  { unfold mills_tail. pose proof (pdf_pos y) as Hpy.
    pose proof (one_plus_sqr_pos y) as H1.
    apply Rmult_le_reg_r with (1 + y * y); [lra | ].
    unfold Rdiv. rewrite Rmult_assoc, Rinv_l, Rmult_1_r by lra.
    rewrite (Rmult_comm y).
    apply Rmult_le_compat_l; [lra | ].
    assert (0 <= (y - 1) * (y - 1)) by apply Rle_0_sqr. 
    assert (0 <= y * y) by (apply Rmult_le_pos; lra). lra. }
  pose proof (cdf_bounds y) as Hcdf.
  unfold mills_gap in Hdec at 1. unfold c in *. lra.
Qed.

Lemma mills_lower_bound (z : R) :
  z * norm.pdf z <= (1 + z * z) * (1 - norm.cdf z).
Proof.
  pose proof (mills_gap_nonneg z) as H.
  unfold mills_gap, mills_tail in H.
  pose proof (one_plus_sqr_pos z) as Hz.
  assert (Hq : z * norm.pdf z / (1 + z * z) <= 1 - norm.cdf z) by lra.
  apply Rmult_le_compat_l with (r := 1 + z * z) in Hq; [ | lra].
  replace ((1 + z * z) * (z * norm.pdf z / (1 + z * z)))
    with (z * norm.pdf z) in Hq by (field; lra).
  exact Hq.
Qed.

(** *** The root function of the Normal profit *)

Lemma inv_pdf_pos (z : R) : 0 < inv_pdf z.
Proof.
  unfold inv_pdf. pose proof sqrt_2PI_gt_2.
  apply Rmult_lt_0_compat; [lra | apply exp_pos].
Qed.

Lemma pdf_inv_pdf (z : R) : norm.pdf z * inv_pdf z = 1.
Proof.
  unfold norm.pdf, inv_pdf. pose proof sqrt_2PI_gt_2.
  replace (exp (- (z * z) / 2) / sqrt (2 * PI)
           * (sqrt (2 * PI) * exp (z * z / 2)))
    with (exp (- (z * z) / 2) * exp (z * z / 2)) by (field; lra).
  rewrite <- exp_plus. replace (- (z * z) / 2 + z * z / 2) with 0 by lra.
  apply exp_0.
Qed.

Lemma inv_pdf_derivative (z : R) :
  derivable_pt_lim inv_pdf z (z * inv_pdf z).
Proof.
  unfold inv_pdf.
  assert (pr : derivable_pt (fun y => sqrt (2 * PI) * exp (y * y / 2)) z)
    by reg.
  apply derive_pt_eq_1 with pr. reg.
  unfold comp, Rdiv. cbv beta. field.
Qed.

Lemma normal_root_derivative (z : R) :
  derivable_pt_lim normal_root z (normal_root' z).
Proof.
  assert (HA : derivable_pt_lim (id * norm.cdf)%F z
                 (1 * norm.cdf z + id z * norm.pdf z)).
  { apply derivable_pt_lim_mult;
      [apply derivable_pt_lim_id | apply cdf_derivative]. }
  assert (HC : derivable_pt_lim (fct_cte 1 - norm.cdf)%F z (0 - norm.pdf z)).
  { apply derivable_pt_lim_minus;
      [apply derivable_pt_lim_const | apply cdf_derivative]. }
  pose proof (derivable_pt_lim_mult _ _ _ _ _ HA HC) as HB.
  pose proof (derivable_pt_lim_mult _ _ _ _ _ HB (inv_pdf_derivative z)) as HG.
  unfold normal_root'.
  replace ((norm.cdf z * (1 - norm.cdf z) * (1 + z * z)
            + z * norm.pdf z * (1 - 2 * norm.cdf z)) * inv_pdf z)
    with (((1 * norm.cdf z + id z * norm.pdf z)
           * (fct_cte 1 - norm.cdf)%F z
           + (id * norm.cdf)%F z * (0 - norm.pdf z)) * inv_pdf z
          + ((id * norm.cdf) * (fct_cte 1 - norm.cdf))%F z * (z * inv_pdf z)).
  - exact HG.
  - unfold mult_fct, minus_fct, fct_cte, id. ring.
Qed.

Lemma normal_root'_pos (z : R) : 0 < normal_root' z.
Proof.
  unfold normal_root'.
  apply Rmult_lt_0_compat; [ | apply inv_pdf_pos].
  pose proof (cdf_bounds z) as Hc.
  pose proof (pdf_pos z) as Hp.
  pose proof (one_plus_sqr_pos z) as Hz2.
  destruct (Rtotal_order z 0) as [Hneg | [-> | Hpos]].
  - pose proof (mills_lower_bound (- z)) as Hm.
    rewrite pdf_even, cdf_opp in Hm.
    replace (1 - (1 - norm.cdf z)) with (norm.cdf z) in Hm by lra.
    replace (- z * - z) with (z * z) in Hm by ring.
    assert (H1 : (1 - norm.cdf z) * (- z * norm.pdf z)
                 <= (1 - norm.cdf z) * ((1 + z * z) * norm.cdf z))
      by (apply Rmult_le_compat_l; lra).
    assert (H2 : 0 < - z * norm.pdf z * norm.cdf z).
    { apply Rmult_lt_0_compat; [apply Rmult_lt_0_compat | ]; lra. }
    lra.
  - rewrite cdf_0. lra.
  - pose proof (mills_lower_bound z) as Hm.
    assert (H1 : norm.cdf z * (z * norm.pdf z)
                 <= norm.cdf z * ((1 + z * z) * (1 - norm.cdf z)))
      by (apply Rmult_le_compat_l; lra).
    assert (H2 : 0 < z * norm.pdf z * (1 - norm.cdf z)).
    { apply Rmult_lt_0_compat; [apply Rmult_lt_0_compat | ]; lra. }
    lra.
Qed.

Lemma normal_root_increasing (x y : R) :
  x < y -> normal_root x < normal_root y.
Proof.
  intros Hxy.
  destruct (MVT_cor2 normal_root normal_root' x y Hxy) as (c & Hc & _).
  - intros c _. apply normal_root_derivative.
  - pose proof (normal_root'_pos c).
    assert (0 < normal_root' c * (y - x)) by (apply Rmult_lt_0_compat; lra).
    lra.
Qed.

Lemma normal_profit_value (mu sigma pi S : R) :
  sigma <> 0 ->
  let z := S / (2 * sigma) in
  Normal._expected_profit mu sigma pi S
  = Some (S / 2
          - pi * (sigma * norm.pdf z / (2 * (norm.cdf z * (1 - norm.cdf z))))).
Proof.
  intros Hs z.
  pose proof (cdf_bounds z) as Hc.
  assert (Hden : 1 - norm.cdf z <> 0) by lra.
  assert (Hc0 : norm.cdf z <> 0) by lra.
  unfold Normal._expected_profit.
  rewrite (normal_profit_ask_value mu sigma pi S Hs Hden).
  rewrite (normal_profit_bid_value mu sigma pi S Hs Hc0). simpl.
  f_equal. fold z. replace 0.5 with (/ 2) by lra. field. split; assumption.
Qed.

Lemma normal_profit_root (mu sigma pi S : R) :
  sigma <> 0 ->
  Normal._expected_profit mu sigma pi S = Some 0 ->
  2 * normal_root (S / (2 * sigma)) = pi.
Proof.
  intros Hs H.
  rewrite (normal_profit_value mu sigma pi S Hs) in H.
  injection H as H.
  set (z := S / (2 * sigma)) in *.
  pose proof (cdf_bounds z) as Hc.
  pose proof (pdf_inv_pdf z) as Hi.
  assert (HS : S = 2 * sigma * z) by (unfold z; field; exact Hs).
  assert (Hprod : 0 < norm.cdf z * (1 - norm.cdf z))
    by (apply Rmult_lt_0_compat; lra).
  assert (E : 2 * sigma * z * (norm.cdf z * (1 - norm.cdf z))
              = pi * (sigma * norm.pdf z)).
  { rewrite HS in H.
    apply Rmult_eq_compat_r
      with (r := 2 * (norm.cdf z * (1 - norm.cdf z))) in H.
    rewrite Rmult_0_l in H.
    replace ((2 * sigma * z / 2
              - pi * (sigma * norm.pdf z
                      / (2 * (norm.cdf z * (1 - norm.cdf z)))))
             * (2 * (norm.cdf z * (1 - norm.cdf z))))
      with (2 * sigma * z * (norm.cdf z * (1 - norm.cdf z))
            - pi * (sigma * norm.pdf z)) in H by (field; lra).
    lra. }
  assert (E' : 2 * z * (norm.cdf z * (1 - norm.cdf z)) = pi * norm.pdf z).
  { apply Rmult_eq_reg_l with sigma; [ | exact Hs]. lra. }
  unfold normal_root.
  replace (2 * (z * norm.cdf z * (1 - norm.cdf z) * inv_pdf z))
    with (2 * z * (norm.cdf z * (1 - norm.cdf z)) * inv_pdf z) by ring.
  rewrite E', Rmult_assoc, Hi. lra.
Qed.

(** Roots of the Normal profit grow with pi. *)
Lemma normal_root_monotone (mu sigma pi1 pi2 s1 s2 : R) :
  0 < sigma -> pi1 < pi2 ->
  Normal._expected_profit mu sigma pi1 s1 = Some 0 ->
  Normal._expected_profit mu sigma pi2 s2 = Some 0 ->
  s1 < s2.
Proof.
  intros Hs Hp H1 H2.
  assert (Hs0 : sigma <> 0) by lra.
  apply (normal_profit_root mu sigma pi1 s1 Hs0) in H1.
  apply (normal_profit_root mu sigma pi2 s2 Hs0) in H2.
  destruct (Rlt_dec s1 s2) as [Hlt | Hge]; [exact Hlt | exfalso].
  assert (Hz : s2 / (2 * sigma) <= s1 / (2 * sigma)).
  { unfold Rdiv. apply Rmult_le_compat_r; [ | lra].
    left. apply Rinv_0_lt_compat. lra. }
  destruct (Req_dec (s2 / (2 * sigma)) (s1 / (2 * sigma))) as [E | N].
  - rewrite E in H2. lra.
  - assert (Hlt : s2 / (2 * sigma) < s1 / (2 * sigma)) by lra.
    pose proof (normal_root_increasing _ _ Hlt). lra.
Qed.

(** *** Roots to run the entry points at *)

Lemma normal_profit_at_root (mu sigma z : R) :
  sigma <> 0 ->
  Normal._expected_profit mu sigma (2 * normal_root z) (2 * sigma * z) = Some 0.
Proof.
  intros Hs.
  rewrite (normal_profit_value mu sigma _ _ Hs).
  replace (2 * sigma * z / (2 * sigma)) with z by (field; exact Hs).
  f_equal. unfold normal_root.
  pose proof (cdf_bounds z) as Hc. pose proof (pdf_inv_pdf z) as Hi.
  replace (2 * sigma * z / 2
           - 2 * (z * norm.cdf z * (1 - norm.cdf z) * inv_pdf z)
             * (sigma * norm.pdf z / (2 * (norm.cdf z * (1 - norm.cdf z)))))
    with (sigma * z * (1 - norm.pdf z * inv_pdf z)) by (field; lra).
  rewrite Hi. ring.
Qed.

Lemma normal_root_0 : normal_root 0 = 0.
Proof. unfold normal_root. ring. Qed.


Lemma exponential_profit_at_root (s : R) :
  0 < s -> 1 - s / 2 <> 0 ->
  let pi := s / (s + hfun (1 - s / 2)) in
  Exponential._expected_profit 1 pi (1.0 / 1) s = Some 0.
Proof.
  intros Hs Hx pi.
  assert (H1 : 1 <> 0) by lra.
  assert (Hb : Exponential.b (1.0 / 1) s = 1 - s / 2)
    by (unfold Exponential.b; lra).
  rewrite (exponential_profit_value 1 pi s H1) by (rewrite Hb; exact Hx).
  rewrite Hb, Rmult_1_l.
  pose proof (hfun_pos _ Hx) as Hh.
  f_equal. unfold pi.
  replace 0.5 with (/ 2) by lra. field. lra.
Qed.

(** ** More on the Normal closure *)

Lemma normal_root_inj (x y : R) : normal_root x = normal_root y -> x = y.
Proof.
  intros H. destruct (Rtotal_order x y) as [Hlt | [E | Hgt]]; [ | exact E | ].
  - pose proof (normal_root_increasing x y Hlt). lra.
  - pose proof (normal_root_increasing y x Hgt). lra.
Qed.

Lemma normal_root_sign (z : R) :
  (0 < normal_root z -> 0 < z) /\ (normal_root z < 0 -> z < 0).
Proof.
  split; intros H.
  - destruct (Rlt_dec 0 z) as [Hz | Hz]; [exact Hz | exfalso].
    destruct (Req_dec z 0) as [-> | N].
    + rewrite normal_root_0 in H. lra.
    + assert (Hlt : z < 0) by lra.
      pose proof (normal_root_increasing z 0 Hlt) as Hi.
      rewrite normal_root_0 in Hi. lra.
  - destruct (Rlt_dec z 0) as [Hz | Hz]; [exact Hz | exfalso].
    destruct (Req_dec z 0) as [-> | N].
    + rewrite normal_root_0 in H. lra.
    + assert (Hlt : 0 < z) by lra.
      pose proof (normal_root_increasing 0 z Hlt) as Hi.
      rewrite normal_root_0 in Hi. lra.
Qed.

Lemma normal_profit_root_iff (mu sigma pi S : R) :
  sigma <> 0 ->
  Normal._expected_profit mu sigma pi S = Some 0
  <-> 2 * normal_root (S / (2 * sigma)) = pi.
Proof.
  intros Hs. split.
  - apply normal_profit_root, Hs.
  - intros <-.
    replace S with (2 * sigma * (S / (2 * sigma))) at 2 by (field; exact Hs).
    apply normal_profit_at_root, Hs.
Qed.

Lemma normal_roots_equal (mu sigma pi s1 s2 : R) :
  sigma <> 0 ->
  Normal._expected_profit mu sigma pi s1 = Some 0 ->
  Normal._expected_profit mu sigma pi s2 = Some 0 ->
  s1 = s2.
Proof.
  intros Hs H1 H2.
  apply (normal_profit_root mu sigma pi s1 Hs) in H1.
  apply (normal_profit_root mu sigma pi s2 Hs) in H2.
  assert (E : s1 / (2 * sigma) = s2 / (2 * sigma))
    by (apply normal_root_inj; lra).
  apply Rmult_eq_compat_r with (r := 2 * sigma) in E.
  replace (s1 / (2 * sigma) * (2 * sigma)) with s1 in E by (field; exact Hs).
  replace (s2 / (2 * sigma) * (2 * sigma)) with s2 in E by (field; exact Hs).
  exact E.
Qed.

Lemma normal_root_positive (mu sigma pi S : R) :
  0 < sigma -> 0 < pi ->
  Normal._expected_profit mu sigma pi S = Some 0 -> 0 < S.
Proof.
  intros Hs Hpi H.
  assert (Hs0 : sigma <> 0) by lra.
  apply (normal_profit_root mu sigma pi S Hs0) in H.
  assert (Hz : 0 < S / (2 * sigma)) by (apply normal_root_sign; lra).
  apply Rmult_lt_compat_r with (r := 2 * sigma) in Hz; [ | lra].
  replace (S / (2 * sigma) * (2 * sigma)) with S in Hz by (field; exact Hs0).
  lra.
Qed.





Lemma normal_root_continuity (z : R) : continuity_pt normal_root z.
Proof.
  apply derivable_continuous_pt. exists (normal_root' z).
  apply normal_root_derivative.
Qed.

Lemma normal_root_lower (z : R) :
  0 < z -> z * z / (2 * (1 + z * z)) < normal_root z.
Proof.
  intros Hz.
  pose proof (mills_lower_bound z) as Hm.
  pose proof (inv_pdf_pos z) as Hi.
  pose proof (pdf_inv_pdf z) as Hpi.
  pose proof (cdf_gt_half z Hz) as Hh.
  pose proof (cdf_bounds z) as Hc.
  pose proof (one_plus_sqr_pos z) as H1.
  assert (Hm' : z * norm.pdf z * inv_pdf z
                <= (1 + z * z) * (1 - norm.cdf z) * inv_pdf z)
    by (apply Rmult_le_compat_r; lra).
  rewrite Rmult_assoc, Hpi, Rmult_1_r in Hm'.
  set (t := (1 - norm.cdf z) * inv_pdf z) in *.
  assert (Ht : z / (1 + z * z) <= t).
  { apply Rmult_le_reg_r with (1 + z * z); [lra | ].
    unfold Rdiv. rewrite Rmult_assoc, Rinv_l, Rmult_1_r by lra.
    unfold t in *. lra. }
  assert (Hq : 0 < z / (1 + z * z)) by (apply Rdiv_lt_0_compat; lra).
  unfold normal_root.
  replace (z * norm.cdf z * (1 - norm.cdf z) * inv_pdf z)
    with (z * norm.cdf z * t) by (unfold t; ring).
  apply Rlt_le_trans with (z * norm.cdf z * (z / (1 + z * z))).
  - replace (z * z / (2 * (1 + z * z)))
      with (z * (1 / 2) * (z / (1 + z * z))) by (field; lra).
    apply Rmult_lt_compat_r; [exact Hq | ].
    apply Rmult_lt_compat_l; lra.
  - apply Rmult_le_compat_l; [ | exact Ht].
    apply Rmult_le_pos; lra.
Qed.

(** A root of the Normal closure for every pi in (0, 1). *)
Lemma normal_root_sig (pi : R) :
  0 < pi < 1 -> {z : R | 0 < z /\ 2 * normal_root z = pi}.
Proof.
  intros Hpi.
  set (Z := / (1 - pi)).
  assert (HZ : 1 < Z).
  { unfold Z. rewrite <- Rinv_1 at 1. apply Rinv_lt_contravar; lra. }
  assert (HZpi : Z * (1 - pi) = 1) by (unfold Z; field; lra).
  pose proof (normal_root_lower Z ltac:(lra)) as Hlow.
  pose proof (one_plus_sqr_pos Z) as H1.
  assert (Hbig : pi / 2 <= normal_root Z).
  { apply Rle_trans with (Z * Z / (2 * (1 + Z * Z))); [ | lra].
    apply Rmult_le_reg_r with (2 * (1 + Z * Z)); [lra | ].
    replace (Z * Z / (2 * (1 + Z * Z)) * (2 * (1 + Z * Z))) with (Z * Z)
      by (field; lra).
    replace (pi / 2 * (2 * (1 + Z * Z))) with (pi + pi * (Z * Z)) by field.
    assert (E : Z * Z = Z + pi * (Z * Z)).
    { replace (Z * Z) with (Z * (Z * (1 - pi)) + pi * (Z * Z)) at 1 by ring.
      rewrite HZpi. ring. }
    lra. }
  assert (H0Z : 0 < Z) by lra.
  assert (Hrange : normal_root 0 <= pi / 2 <= normal_root Z)
    by (rewrite normal_root_0; lra).
  destruct (f_interv_is_interv normal_root 0 Z (pi / 2) H0Z Hrange)
    as (z & Hz & Hv).
  - intros x _. apply normal_root_continuity.
  - exists z. split; [ | lra].
    destruct (Req_dec z 0) as [E | N]; [ | lra].
    rewrite E, normal_root_0 in Hv. lra.
Qed.







(** ** More on the Exponential closure *)

Lemma hfun_vs_1_plus (x : R) :
  (0 < x -> hfun x <= 1 + x) /\ (x < 0 -> 1 + x <= hfun x).
Proof.
  destruct (one_minus_exp_sign x) as [Hp Hn].
  pose proof (exp_ge_1_plus x) as He.
  pose proof (exp_pos (- x)) as Hpos.
  assert (HE : exp (- x) * exp x = 1)
    by (rewrite <- exp_plus; replace (- x + x) with 0 by lra; apply exp_0).
  assert (Hk : (1 + x) * exp (- x) <= 1).
  { rewrite <- HE, (Rmult_comm (exp (- x))).
    apply Rmult_le_compat_r; lra. }
  unfold hfun. split; intros Hx.
  - specialize (Hp Hx).
    apply Rmult_le_reg_r with (1 - exp (- x)); [lra | ].
    replace (x / (1 - exp (- x)) * (1 - exp (- x))) with x by (field; lra).
    lra.
  - specialize (Hn Hx).
    apply Rmult_le_reg_r with (- (1 - exp (- x))); [lra | ].
    replace (x / (1 - exp (- x)) * - (1 - exp (- x))) with (- x)
      by (field; lra).
    lra.
Qed.

Lemma decimal_one : 1.0 = 1.
Proof. lra. Qed.

(** [lam b = 1 - lam S / 2] at the bid [b = 1/lam - S/2]. *)
Lemma exponential_lam_b (lam S : R) :
  lam <> 0 -> lam * Exponential.b (1.0 / lam) S = 1 - lam * S / 2.
Proof.
  intros Hlam. unfold Exponential.b. rewrite decimal_one. field. exact Hlam.
Qed.

Lemma exponential_b_zero_iff (lam S : R) :
  lam <> 0 -> Exponential.b (1.0 / lam) S = 0 <-> 1 - lam * S / 2 = 0.
Proof.
  intros Hlam. rewrite <- (exponential_lam_b lam S Hlam). split.
  - intros ->. ring.
  - intros H. apply Rmult_integral in H. tauto.
Qed.

Lemma exponential_profit_root_iff (lam pi S : R) :
  lam <> 0 ->
  Exponential._expected_profit lam pi (1.0 / lam) S = Some 0
  <-> 1 - lam * S / 2 <> 0
      /\ (1 - pi) * (lam * S) = pi * hfun (1 - lam * S / 2).
Proof.
  intros Hlam. split.
  - intros H.
    pose proof (exponential_profit_finite _ _ _ _ _ H) as Hb.
    rewrite (exponential_profit_value lam pi S Hlam Hb) in H.
    rewrite (exponential_lam_b lam S Hlam) in H.
    injection H as H.
    split.
    + intros H0. apply Hb. apply exponential_b_zero_iff; assumption.
    + assert (E : (1 - pi) * S = pi * (hfun (1 - lam * S / 2) / lam)) by lra.
      apply Rmult_eq_compat_l with (r := lam) in E.
      replace (lam * (pi * (hfun (1 - lam * S / 2) / lam)))
        with (pi * hfun (1 - lam * S / 2)) in E by (field; exact Hlam).
      lra.
  - intros [Hx E].
    assert (Hb : Exponential.b (1.0 / lam) S <> 0).
    { intros H0. apply Hx. apply exponential_b_zero_iff; assumption. }
    rewrite (exponential_profit_value lam pi S Hlam Hb).
    rewrite (exponential_lam_b lam S Hlam).
    f_equal.
    replace (pi * (hfun (1 - lam * S / 2) / lam))
      with (pi * hfun (1 - lam * S / 2) / lam) by (field; exact Hlam).
    rewrite <- E. field. exact Hlam.
Qed.


Lemma exponential_root_positive (lam pi S : R) :
  0 < lam -> 0 < pi -> pi < 1 ->
  Exponential._expected_profit lam pi (1.0 / lam) S = Some 0 -> 0 < S.
Proof.
  intros Hlam Hp0 Hp1 H.
  assert (Hl0 : lam <> 0) by lra.
  apply (exponential_profit_root_iff lam pi S Hl0) in H.
  destruct H as [Hx E].
  pose proof (hfun_pos _ Hx) as Hh.
  assert (Hr : 0 < pi * hfun (1 - lam * S / 2))
    by (apply Rmult_lt_0_compat; lra).
  destruct (Rlt_dec 0 S) as [HS | HS]; [exact HS | exfalso].
  assert (lam * S <= lam * 0) by (apply Rmult_le_compat_l; lra).
  assert ((1 - pi) * (lam * S) <= (1 - pi) * 0)
    by (apply Rmult_le_compat_l; lra).
  lra.
Qed.

Lemma exponential_roots_equal (lam pi s1 s2 : R) :
  0 < lam -> 0 < pi -> pi < 1 ->
  Exponential._expected_profit lam pi (1.0 / lam) s1 = Some 0 ->
  Exponential._expected_profit lam pi (1.0 / lam) s2 = Some 0 ->
  s1 = s2.
Proof.
  assert (Hle : forall s1 s2,
             0 < lam -> 0 < pi -> pi < 1 ->
             Exponential._expected_profit lam pi (1.0 / lam) s1 = Some 0 ->
             Exponential._expected_profit lam pi (1.0 / lam) s2 = Some 0 ->
             s1 <= s2).
  { intros t1 t2 Hlam Hp0 Hp1 H1 H2.
    assert (Hl0 : lam <> 0) by lra.
    apply (exponential_profit_root_iff lam pi t1 Hl0) in H1.
    apply (exponential_profit_root_iff lam pi t2 Hl0) in H2.
    destruct H1 as [Hx1 E1]. destruct H2 as [Hx2 E2].
    destruct (Rle_dec t1 t2) as [H | H]; [exact H | exfalso].
    assert (Hlt : t2 < t1) by lra.
    assert (Hls : lam * t2 < lam * t1) by (apply Rmult_lt_compat_l; lra).
    assert (Hx : 1 - lam * t1 / 2 <= 1 - lam * t2 / 2) by lra.
    pose proof (hfun_increasing _ _ Hx1 Hx2 Hx) as Hh.
    assert (A1 : pi * hfun (1 - lam * t1 / 2) <= pi * hfun (1 - lam * t2 / 2))
      by (apply Rmult_le_compat_l; lra).
    assert (A2 : (1 - pi) * (lam * t2) < (1 - pi) * (lam * t1))
      by (apply Rmult_lt_compat_l; lra).
    lra. }
  intros Hlam Hp0 Hp1 H1 H2.
  apply Rle_antisym; apply Hle; assumption.
Qed.

(** Where the bid of a root lies, against pi = 2/3. *)
Lemma exponential_root_bid_sign (lam pi S : R) :
  0 < lam -> 0 < pi -> pi < 1 ->
  Exponential._expected_profit lam pi (1.0 / lam) S = Some 0 ->
  (0 < Exponential.b (1.0 / lam) S /\ pi < 2 / 3)
  \/ (Exponential.b (1.0 / lam) S < 0 /\ 2 / 3 < pi).
Proof.
  intros Hlam Hp0 Hp1 H.
  assert (Hl0 : lam <> 0) by lra.
  apply (exponential_profit_root_iff lam pi S Hl0) in H.
  destruct H as [Hx E].
  set (x := 1 - lam * S / 2) in *.
  assert (Hb : Exponential.b (1.0 / lam) S = x / lam).
  { unfold x, Exponential.b. rewrite decimal_one. field. exact Hl0. }
  assert (HlS : lam * S = 2 * (1 - x)) by (unfold x; lra).
  rewrite HlS in E.
  assert (Hil : 0 < / lam) by (apply Rinv_0_lt_compat, Hlam).
  destruct (Rtotal_order x 0) as [Hneg | [E0 | Hpos]]; [ | tauto | ].
  - right. pose proof (proj1 (hfun_vs_1 x) Hneg) as Hh.
    assert (pi * hfun x <= pi * 1) by (apply Rmult_le_compat_l; lra).
    assert ((1 - pi) * (2 * 1) < (1 - pi) * (2 * (1 - x)))
      by (apply Rmult_lt_compat_l; lra).
    split; [ | lra].
    rewrite Hb. unfold Rdiv.
    replace (x * / lam) with (- (- x * / lam)) by ring.
    assert (0 < - x * / lam) by (apply Rmult_lt_0_compat; lra). lra.
  - left. pose proof (proj2 (hfun_vs_1 x) Hpos) as Hh.
    assert (pi * 1 <= pi * hfun x) by (apply Rmult_le_compat_l; lra).
    assert ((1 - pi) * (2 * (1 - x)) < (1 - pi) * (2 * 1))
      by (apply Rmult_lt_compat_l; lra).
    split; [ | lra].
    rewrite Hb. apply Rdiv_lt_0_compat; lra.
Qed.

Lemma hfun_continuity (x : R) : x <> 0 -> continuity_pt hfun x.
Proof.
  intros Hx. apply derivable_continuous_pt. exists (hfun' x).
  apply hfun_derivative, Hx.
Qed.

(** The root equation in x = lam b: pi hfun x = 2 (1 - pi) (1 - x). *)
Lemma bid_gap_continuity (pi x : R) : x <> 0 -> continuity_pt (bid_gap pi) x.
Proof.
  intros Hx.
  set (lin := fun t : R => 2 * (1 - pi) * (1 - t)).
  change (continuity_pt (mult_real_fct pi hfun - lin)%F x).
  apply continuity_pt_minus.
  - apply continuity_pt_scal, hfun_continuity, Hx.
  - unfold lin. reg.
Qed.

Lemma bid_gap_root_sig (pi : R) :
  0 < pi -> pi < 1 -> pi <> 2 / 3 ->
  {x : R | x <> 0 /\ bid_gap pi x = 0}.
Proof.
  intros Hp0 Hp1 Hp.
  set (x1 := (2 - 3 * pi) / (2 * (2 - pi))).
  assert (Hx1 : x1 * (2 * (2 - pi)) = 2 - 3 * pi) by (unfold x1; field; lra).
  assert (Hlin : pi * (1 + x1) - 2 * (1 - pi) * (1 - x1) = - ((2 - 3 * pi) / 2))
    by lra.
  destruct (total_order_T pi (2 / 3)) as [[Hlt | E] | Hgt]; [ | tauto | ].
  - assert (Hpos : 0 < x1) by (unfold x1; apply Rdiv_lt_0_compat; lra).
    assert (Hlt1 : x1 < 1).
    { apply Rmult_lt_reg_r with (2 * (2 - pi)); lra. }
    pose proof (proj1 (hfun_vs_1_plus x1) Hpos) as Hh.
    assert (Hlo : bid_gap pi x1 <= 0).
    { unfold bid_gap.
      assert (pi * hfun x1 <= pi * (1 + x1))
        by (apply Rmult_le_compat_l; lra).
      lra. }
    assert (Hhi : 0 <= bid_gap pi 1).
    { unfold bid_gap. assert (H1 : 1 <> 0) by lra.
      pose proof (hfun_pos 1 H1).
      assert (0 < pi * hfun 1) by (apply Rmult_lt_0_compat; lra). lra. }
    destruct (f_interv_is_interv (bid_gap pi) x1 1 0 Hlt1 (conj Hlo Hhi))
      as (x & Hx & Hv).
    + intros t Ht. apply bid_gap_continuity. lra.
    + exists x. split; [lra | exact Hv].
  - assert (Hneg : x1 < 0).
    { apply Rmult_lt_reg_r with (2 * (2 - pi)); lra. }
    set (x0 := - pi / (1 - pi)).
    assert (Hx0 : x0 * (1 - pi) = - pi) by (unfold x0; field; lra).
    assert (Hx0m : x0 < -1).
    { apply Rmult_lt_reg_r with (1 - pi); lra. }
    assert (Hx1m : -1 < x1).
    { apply Rmult_lt_reg_r with (2 * (2 - pi)); lra. }
    assert (Hlo : bid_gap pi x0 <= 0).
    { unfold bid_gap.
      pose proof (proj1 (hfun_vs_1 x0) ltac:(lra)) as Hh.
      assert (pi * hfun x0 <= pi * 1) by (apply Rmult_le_compat_l; lra).
      lra. }
    assert (Hhi : 0 <= bid_gap pi x1).
    { unfold bid_gap.
      pose proof (proj2 (hfun_vs_1_plus x1) Hneg) as Hh.
      assert (pi * (1 + x1) <= pi * hfun x1)
        by (apply Rmult_le_compat_l; lra).
      lra. }
    assert (Hord : x0 < x1) by lra.
    destruct (f_interv_is_interv (bid_gap pi) x0 x1 0 Hord (conj Hlo Hhi))
      as (x & Hx & Hv).
    + intros t Ht. apply bid_gap_continuity. lra.
    + exists x. split; [lra | exact Hv].
Qed.

Lemma exponential_root_sig (lam pi : R) :
  0 < lam -> 0 < pi -> pi < 1 -> pi <> 2 / 3 ->
  {S : R | Exponential._expected_profit lam pi (1.0 / lam) S = Some 0}.
Proof.
  intros Hlam Hp0 Hp1 Hp.
  assert (Hl0 : lam <> 0) by lra.
  destruct (bid_gap_root_sig pi Hp0 Hp1 Hp) as (x & Hx & Hv).
  exists (2 * (1 - x) / lam).
  apply exponential_profit_root_iff; [exact Hl0 | ].
  replace (lam * (2 * (1 - x) / lam)) with (2 * (1 - x)) by (field; exact Hl0).
  replace (1 - 2 * (1 - x) / 2) with x by lra.
  split; [exact Hx | ]. unfold bid_gap in Hv. lra.
Qed.

(** The pi at which a given S > 0 is the root, for lam = 1. *)
Lemma exponential_root_pi_range (s : R) :
  0 < s -> 1 - s / 2 <> 0 ->
  0 < s / (s + hfun (1 - s / 2)) < 1.
Proof.
  intros Hs Hx. pose proof (hfun_pos _ Hx) as Hh.
  split.
  - apply Rdiv_lt_0_compat; lra.
  - apply Rmult_lt_reg_r with (s + hfun (1 - s / 2)); [lra | ].
    unfold Rdiv. rewrite Rmult_assoc, Rinv_l by lra. lra.
Qed.





(** X11.  Exponential with lam > 0 and 0 < pi < 1: the profit closure has
    at most one root, and a root is positive; so when the solver returns a
    root, the spread is positive and bid < 1/lam < ask. *)
Theorem exponential_equilibrium_unique_positive
        (fsolve : (R -> num) -> R -> R) (lam pi g : R) :
  0 < lam -> 0 < pi -> pi < 1 ->
  let EV := 1.0 / lam in
  let s := fsolve (Exponential._expected_profit lam pi EV) g in
  Exponential._expected_profit lam pi EV s = Some 0 ->
  (forall S, Exponential._expected_profit lam pi EV S = Some 0 -> S = s)
  /\ exists q, bid_ask_exponential fsolve lam pi g = Return q
               /\ spread q = s /\ 0 < spread q /\ bid q < 1 / lam < ask q.
Proof.
  intros Hlam Hp0 Hp1 EV s Hroot.
  assert (Hl0 : lam <> 0) by lra.
  pose proof (exponential_root_positive lam pi s Hlam Hp0 Hp1 Hroot) as Hpos.
  split.
  - intros S HS.
    apply (exponential_roots_equal lam pi S s Hlam Hp0 Hp1 HS Hroot).
  - eexists. split; [apply bid_ask_exponential_lam_nonzero, Hl0 | ].
    simpl. fold EV. fold s. unfold EV. rewrite decimal_one.
    repeat split; lra.
Qed.

Lemma exponential_equilibrium_unique_positive_witness :
  let pi := (1 / 2) / (1 / 2 + hfun (1 - (1 / 2) / 2)) in
  exists q, bid_ask_exponential no_step 1 pi (1 / 2) = Return q
            /\ spread q = 1 / 2 /\ bid q < 1 / 1 < ask q.
Proof.
  intros pi.
  assert (Hlam : 0 < 1) by lra.
  assert (Hs : 0 < 1 / 2) by lra.
  assert (Hx : 1 - (1 / 2) / 2 <> 0) by lra.
  destruct (exponential_root_pi_range (1 / 2) Hs Hx) as [Hp0 Hp1].
  fold pi in Hp0, Hp1.
  assert (Hroot : Exponential._expected_profit 1 pi (1.0 / 1)
                    (no_step (Exponential._expected_profit 1 pi (1.0 / 1))
                       (1 / 2))
                  = Some 0).
  { unfold no_step, pi. apply (exponential_profit_at_root (1 / 2) Hs Hx). }
  destruct (exponential_equilibrium_unique_positive no_step 1 pi (1 / 2)
              Hlam Hp0 Hp1 Hroot) as (_ & q & Hq & Hsp & _ & Hba).
  exists q. unfold no_step in Hsp. repeat split; tauto.
Defined.

(** X12.  Exponential with lam > 0: at pi = 2/3 the profit closure has no
    root at all (its zero would sit at S = 2/lam, where it has no finite
    value); for any other pi in (0, 1) a root has a positive bid when
    pi < 2/3 and a negative bid when pi > 2/3. *)
Theorem exponential_bid_sign (lam : R) :
  0 < lam ->
  (forall S, Exponential._expected_profit lam (2 / 3) (1.0 / lam) S <> Some 0)
  /\
  (forall pi S,
      0 < pi -> pi < 1 ->
      Exponential._expected_profit lam pi (1.0 / lam) S = Some 0 ->
      (pi < 2 / 3 /\ 0 < 1 / lam - S / 2)
      \/ (2 / 3 < pi /\ 1 / lam - S / 2 < 0)).
Proof.
  intros Hlam. split.
  - intros S H.
    assert (H0 : 0 < 2 / 3) by lra. assert (H1 : 2 / 3 < 1) by lra.
    destruct (exponential_root_bid_sign lam (2 / 3) S Hlam H0 H1 H)
      as [[_ Hc] | [_ Hc]]; lra.
  - intros pi S Hp0 Hp1 H.
    destruct (exponential_root_bid_sign lam pi S Hlam Hp0 Hp1 H)
      as [[Hb Hc] | [Hb Hc]]; unfold Exponential.b in Hb;
      rewrite decimal_one in Hb; [left | right]; split; assumption.
Qed.

Lemma exponential_bid_sign_witness :
  let pi := (1 / 2) / (1 / 2 + hfun (1 - (1 / 2) / 2)) in
  Exponential._expected_profit 1 pi (1.0 / 1) (1 / 2) = Some 0
  /\ pi < 2 / 3.
Proof.
  intros pi.
  assert (Hlam : 0 < 1) by lra.
  assert (Hs : 0 < 1 / 2) by lra.
  assert (Hx : 1 - (1 / 2) / 2 <> 0) by lra.
  destruct (exponential_root_pi_range (1 / 2) Hs Hx) as [Hp0 Hp1].
  fold pi in Hp0, Hp1.
  pose proof (exponential_profit_at_root (1 / 2) Hs Hx) as Hroot.
  split; [exact Hroot | ].
  destruct (proj2 (exponential_bid_sign 1 Hlam) pi (1 / 2) Hp0 Hp1 Hroot)
    as [[Hc _] | [_ Hb]]; [exact Hc | lra].
Defined.

(** X13.  Exponential with lam > 0 and pi in (0, 1) other than 2/3: the
    zero-profit spread exists; the closure has a root, exactly one, and it
    is positive. *)
Theorem exponential_equilibrium_exists (lam pi : R) :
  0 < lam -> 0 < pi -> pi < 1 -> pi <> 2 / 3 ->
  exists S,
    0 < S
    /\ Exponential._expected_profit lam pi (1.0 / lam) S = Some 0
    /\ forall S',
        Exponential._expected_profit lam pi (1.0 / lam) S' = Some 0 -> S' = S.
Proof.
  intros Hlam Hp0 Hp1 Hp.
  destruct (exponential_root_sig lam pi Hlam Hp0 Hp1 Hp) as (S & HS).
  exists S. split; [ | split].
  - apply (exponential_root_positive lam pi S Hlam Hp0 Hp1 HS).
  - exact HS.
  - intros S' HS'.
    apply (exponential_roots_equal lam pi S' S Hlam Hp0 Hp1 HS' HS).
Qed.

Lemma exponential_equilibrium_exists_witness :
  exists S,
    0 < S
    /\ Exponential._expected_profit 0.0075 0.01 (1.0 / 0.0075) S = Some 0.
Proof.
  assert (Hlam : 0 < 0.0075) by lra.
  assert (Hp0 : 0 < 0.01) by lra.
  assert (Hp1 : 0.01 < 1) by lra.
  assert (Hp : 0.01 <> 2 / 3) by lra.
  destruct (exponential_equilibrium_exists 0.0075 0.01 Hlam Hp0 Hp1 Hp)
    as (S & HS & Hroot & _).
  exists S. split; assumption.
Defined.



(** X15.  The Exponential equilibrium spread is proportional to the mean
    1/lam: roots at the same pi in (0, 1) for two rates have the same
    product lam S. *)
Theorem exponential_equilibrium_proportional (lam1 lam2 pi s1 s2 : R) :
  0 < lam1 -> 0 < lam2 -> 0 < pi -> pi < 1 ->
  Exponential._expected_profit lam1 pi (1.0 / lam1) s1 = Some 0 ->
  Exponential._expected_profit lam2 pi (1.0 / lam2) s2 = Some 0 ->
  lam1 * s1 = lam2 * s2.
Proof.
  intros H1 H2 Hp0 Hp1 R1 R2.
  assert (Hone : 0 < 1) by lra.
  assert (Hunit : forall lam s,
             0 < lam ->
             Exponential._expected_profit lam pi (1.0 / lam) s = Some 0 ->
             Exponential._expected_profit 1 pi (1.0 / 1) (lam * s) = Some 0).
  { intros lam s Hlam HR.
    assert (Hl0 : lam <> 0) by lra. assert (H10 : 1 <> 0) by lra.
    apply (exponential_profit_root_iff lam pi s Hl0) in HR.
    apply (exponential_profit_root_iff 1 pi (lam * s) H10).
    replace (1 * (lam * s)) with (lam * s) by ring. exact HR. }
  apply (exponential_roots_equal 1 pi _ _ Hone Hp0 Hp1).
  - apply Hunit; assumption.
  - apply Hunit; assumption.
Qed.

Lemma exponential_equilibrium_proportional_witness :
  exists s1 s2,
    Exponential._expected_profit 0.0075 0.01 (1.0 / 0.0075) s1 = Some 0
    /\ Exponential._expected_profit 1 0.01 (1.0 / 1) s2 = Some 0
    /\ 0.0075 * s1 = 1 * s2.
Proof.
  assert (H1 : 0 < 0.0075) by lra.
  assert (H2 : 0 < 1) by lra.
  assert (Hp0 : 0 < 0.01) by lra.
  assert (Hp1 : 0.01 < 1) by lra.
  assert (Hp : 0.01 <> 2 / 3) by lra.
  destruct (exponential_root_sig 0.0075 0.01 H1 Hp0 Hp1 Hp) as [s1 R1].
  destruct (exponential_root_sig 1 0.01 H2 Hp0 Hp1 Hp) as [s2 R2].
  exists s1, s2. split; [exact R1 | split; [exact R2 | ]].
  exact (exponential_equilibrium_proportional
           0.0075 1 0.01 s1 s2 H1 H2 Hp0 Hp1 R1 R2).
Defined.

(** A root at rate [lam] is a root at rate 1 of the spread [lam S]. *)
Lemma exponential_root_unit_rate (lam pi S : R) :
  lam <> 0 ->
  Exponential._expected_profit lam pi (1.0 / lam) S = Some 0
  <-> Exponential._expected_profit 1 pi (1.0 / 1) (lam * S) = Some 0.
Proof.
  intros Hlam.
  assert (H1 : 1 <> 0) by lra.
  rewrite (exponential_profit_root_iff lam pi S Hlam).
  rewrite (exponential_profit_root_iff 1 pi (lam * S) H1).
  replace (1 * (lam * S)) with (lam * S) by ring.
  tauto.
Qed.

(** X20.  A negative lam is not rejected: with lam < 0 and 0 < pi < 1, when
    the solver returns a root, [bid_ask_exponential] returns a negative
    spread and crossed quotes around the negative center,
    ask < 1/lam < bid. *)
Theorem exponential_negative_lam_crosses (fsolve : (R -> num) -> R -> R)
        (lam pi g : R) :
  lam < 0 -> 0 < pi -> pi < 1 ->
  let s := fsolve (Exponential._expected_profit lam pi (1.0 / lam)) g in
  Exponential._expected_profit lam pi (1.0 / lam) s = Some 0 ->
  exists q, bid_ask_exponential fsolve lam pi g = Return q
            /\ spread q < 0 /\ ask q < 1 / lam < bid q /\ 1 / lam < 0.
Proof.
  intros Hlam Hp0 Hp1 s Hroot.
  assert (Hl0 : lam <> 0) by lra.
  assert (Hone : 0 < 1) by lra.
  apply (exponential_root_unit_rate lam pi s Hl0) in Hroot.
  pose proof (exponential_root_positive 1 pi _ Hone Hp0 Hp1 Hroot) as Hpos.
  assert (Hneg : s < 0).
  { destruct (Rlt_dec s 0) as [H | H]; [exact H | exfalso].
    assert (0 <= - lam * s) by (apply Rmult_le_pos; lra).
    lra. }
  assert (Hc : 1 / lam < 0).
  { unfold Rdiv. rewrite Rmult_1_l. apply Rinv_lt_0_compat, Hlam. }
  eexists. split; [apply bid_ask_exponential_lam_nonzero, Hl0 | ].
  simpl. fold s. rewrite decimal_one.
  repeat split; lra.
Qed.

Lemma exponential_negative_lam_crosses_witness :
  let pi := (1 / 2) / (1 / 2 + hfun (1 - (1 / 2) / 2)) in
  exists q, bid_ask_exponential no_step (- 1) pi (- (1 / 2)) = Return q
            /\ spread q < 0 /\ ask q < 1 / (- 1) < bid q.
Proof.
  intros pi.
  assert (Hlam : - 1 < 0) by lra.
  assert (Hl0 : - 1 <> 0) by lra.
  assert (Hs : 0 < 1 / 2) by lra.
  assert (Hx : 1 - (1 / 2) / 2 <> 0) by lra.
  destruct (exponential_root_pi_range (1 / 2) Hs Hx) as [Hp0 Hp1].
  fold pi in Hp0, Hp1.
  assert (Hroot : Exponential._expected_profit (- 1) pi (1.0 / (- 1))
                    (no_step
                       (Exponential._expected_profit (- 1) pi (1.0 / (- 1)))
                       (- (1 / 2)))
                  = Some 0).
  { unfold no_step.
    apply (exponential_root_unit_rate (- 1) pi (- (1 / 2)) Hl0).
    replace (- 1 * - (1 / 2)) with (1 / 2) by lra.
    unfold pi. apply (exponential_profit_at_root (1 / 2) Hs Hx). }
  destruct (exponential_negative_lam_crosses no_step (- 1) pi (- (1 / 2))
              Hlam Hp0 Hp1 Hroot) as (q & Hq & Hsp & Hba & _).
  exists q. repeat split; tauto.
Defined.

(** ** The sign of the profit, and the script *)



Lemma first_root_finds (c1 c2 : R) (f : R -> num) (x0 : R) :
  f c1 = Some 0 \/ f c2 = Some 0 ->
  f (first_root c1 c2 f x0) = Some 0.
Proof.
  intros H. unfold first_root.
  destruct (f c1) as [r | ] eqn:E.
  - destruct (Req_dec_T r 0) as [-> | N].
    + exact E.
    + destruct H as [H | H]; [ | exact H].
      injection H as H. contradiction.
  - destruct H as [H | H]; [discriminate | exact H].
Qed.

Lemma main_value (fsolve : (R -> num) -> R -> R) :
  let s_n := fsolve (Normal._expected_profit 102 7 0.3) 1.0 in
  let s_e :=
    fsolve (Exponential._expected_profit 0.0075 0.01 (1.0 / 0.0075)) 1.0 in
  main fsolve
  = ((Text "------- Normal Distribution -------"%string
      :: Quotes (102 - s_n / 2) (102 + s_n / 2) s_n
      :: Text "----- Exponential Distribution -----"%string
      :: Quotes (1.0 / 0.0075 - s_e / 2) (1.0 / 0.0075 + s_e / 2) s_e
      :: nil)%list,
     Return tt).
Proof.
  intros s_n s_e. unfold main.
  rewrite bid_ask_normal_total.
  assert (Hlam : 0.0075 <> 0) by lra.
  rewrite (bid_ask_exponential_lam_nonzero fsolve 0.0075 0.01 1.0 Hlam).
  reflexivity.
Qed.



(** X16.  Adverse selection lowers the Exponential profit: for lam > 0 and
    a candidate spread S >= 0 at which the closure is finite, its value is
    strictly decreasing in pi. *)
Theorem exponential_profit_decreasing_in_pi (lam pi1 pi2 S r1 r2 : R) :
  0 < lam -> 0 <= S -> pi1 < pi2 ->
  Exponential._expected_profit lam pi1 (1.0 / lam) S = Some r1 ->
  Exponential._expected_profit lam pi2 (1.0 / lam) S = Some r2 ->
  r2 < r1.
Proof.
  intros Hlam HS Hp H1 H2.
  assert (Hl0 : lam <> 0) by lra.
  pose proof (exponential_profit_finite _ _ _ _ _ H1) as Hb.
  rewrite (exponential_profit_value lam pi1 S Hl0 Hb) in H1.
  rewrite (exponential_profit_value lam pi2 S Hl0 Hb) in H2.
  injection H1 as <-. injection H2 as <-.
  assert (Hx : lam * Exponential.b (1.0 / lam) S <> 0).
  { intros H0. apply Rmult_integral in H0. tauto. }
  pose proof (hfun_pos _ Hx) as Hh.
  set (h := hfun (lam * Exponential.b (1.0 / lam) S) / lam).
  assert (Hh' : 0 < h) by (apply Rdiv_lt_0_compat; assumption).
  assert (Hd : 0 < (pi2 - pi1) * (S + h))
    by (apply Rmult_lt_0_compat; lra).
  lra.
Qed.

Lemma exponential_profit_decreasing_in_pi_witness :
  exists r1 r2,
    Exponential._expected_profit 0.0075 0.01 (1.0 / 0.0075) 1.0 = Some r1
    /\ Exponential._expected_profit 0.0075 0.3 (1.0 / 0.0075) 1.0 = Some r2
    /\ r2 < r1.
Proof.
  assert (Hlam : 0 < 0.0075) by lra.
  assert (Hl0 : 0.0075 <> 0) by lra.
  assert (HS : 0 <= 1.0) by lra.
  assert (Hp : 0.01 < 0.3) by lra.
  assert (Hb : Exponential.b (1.0 / 0.0075) 1.0 <> 0).
  { unfold Exponential.b. lra. }
  destruct (exponential_profit_defined 0.0075 0.01 (1.0 / 0.0075) 1.0 Hl0 Hb)
    as [r1 H1].
  destruct (exponential_profit_defined 0.0075 0.3 (1.0 / 0.0075) 1.0 Hl0 Hb)
    as [r2 H2].
  exists r1, r2. split; [exact H1 | split; [exact H2 | ]].
  exact (exponential_profit_decreasing_in_pi
           0.0075 0.01 0.3 1.0 r1 r2 Hlam HS Hp H1 H2).
Defined.



(** X18.  [main] never fails, whatever the solver does: it prints its four
    lines in order, and each triple it prints is made of the answer s of
    the solver in that call, as (c - s/2, c + s/2, s) with c = 102 for the
    Normal call and c = 1.0 / 0.0075 for the Exponential one. *)
Theorem main_prints_two_quotes (fsolve : (R -> num) -> R -> R) :
  let s_n := fsolve (Normal._expected_profit 102 7 0.3) 1.0 in
  let s_e :=
    fsolve (Exponential._expected_profit 0.0075 0.01 (1.0 / 0.0075)) 1.0 in
  main fsolve
  = ((Text "------- Normal Distribution -------"
      :: Quotes (102 - s_n / 2) (102 + s_n / 2) s_n
      :: Text "----- Exponential Distribution -----"
      :: Quotes (1.0 / 0.0075 - s_e / 2) (1.0 / 0.0075 + s_e / 2) s_e
      :: nil)%list,
     Return tt).
Proof. exact (main_value fsolve). Qed.

(** X19.  When the solver returns a root in both calls, [main] prints the
    two equilibrium quotes: each spread is the only root of its profit
    function and is positive, the Normal bid and ask lie on both sides of
    102, and the Exponential bid is positive and below the ask. *)
Theorem main_quotes_at_equilibrium (fsolve : (R -> num) -> R -> R) :
  let f_n := Normal._expected_profit 102 7 0.3 in
  let f_e := Exponential._expected_profit 0.0075 0.01 (1.0 / 0.0075) in
  f_n (fsolve f_n 1.0) = Some 0 ->
  f_e (fsolve f_e 1.0) = Some 0 ->
  exists bid_n ask_n spread_n bid_e ask_e spread_e,
    main fsolve
    = ((Text "------- Normal Distribution -------"%string
        :: Quotes bid_n ask_n spread_n
        :: Text "----- Exponential Distribution -----"%string
        :: Quotes bid_e ask_e spread_e
        :: nil)%list,
       Return tt)
    /\ (forall S, f_n S = Some 0 -> S = spread_n)
    /\ (forall S, f_e S = Some 0 -> S = spread_e)
    /\ 0 < spread_n /\ bid_n < 102 < ask_n
    /\ 0 < spread_e /\ 0 < bid_e < ask_e.
Proof.
  intros f_n f_e Hn He.
  assert (Hs : 0 < 7) by lra.
  assert (Hs0 : 7 <> 0) by lra.
  assert (Hlam : 0 < 0.0075) by lra.
  assert (Hn0 : 0 < 0.3) by lra.
  assert (He0 : 0 < 0.01) by lra.
  assert (He1 : 0.01 < 1) by lra.
  pose proof (normal_root_positive 102 7 0.3 _ Hs Hn0 Hn) as Hpn.
  pose proof (exponential_root_positive 0.0075 0.01 _ Hlam He0 He1 He) as Hpe.
  assert (Hbe : 0 < Exponential.b (1.0 / 0.0075) (fsolve f_e 1.0)).
  { destruct (exponential_root_bid_sign 0.0075 0.01 _ Hlam He0 He1 He)
      as [[Hb _] | [_ Hc]]; [exact Hb | lra]. }
  unfold Exponential.b in Hbe.
  do 6 eexists. split; [apply main_value | ].
  fold f_n. fold f_e.
  split; [ | split].
  - intros S HS. apply (normal_roots_equal 102 7 0.3 S _ Hs0 HS Hn).
  - intros S HS.
    apply (exponential_roots_equal 0.0075 0.01 S _ Hlam He0 He1 HS He).
  - repeat split; lra.
Qed.

Lemma main_quotes_at_equilibrium_witness :
  exists c1 c2 bid_n ask_n spread_n bid_e ask_e spread_e,
    main (first_root c1 c2)
    = ((Text "------- Normal Distribution -------"%string
        :: Quotes bid_n ask_n spread_n
        :: Text "----- Exponential Distribution -----"%string
        :: Quotes bid_e ask_e spread_e
        :: nil)%list,
       Return tt)
    /\ 0 < spread_n /\ bid_n < 102 < ask_n
    /\ 0 < spread_e /\ 0 < bid_e < ask_e.
Proof.
  assert (Hs0 : 7 <> 0) by lra.
  assert (Hlam : 0 < 0.0075) by lra.
  assert (Hn : 0 < 0.3 < 1) by lra.
  assert (He0 : 0 < 0.01) by lra.
  assert (He1 : 0.01 < 1) by lra.
  assert (He : 0.01 <> 2 / 3) by lra.
  destruct (normal_root_sig 0.3 Hn) as (z & _ & Hz).
  destruct (exponential_root_sig 0.0075 0.01 Hlam He0 He1 He) as (c2 & Hc2).
  pose proof (normal_profit_at_root 102 7 z Hs0) as Hc1.
  rewrite Hz in Hc1.
  exists (2 * 7 * z), c2.
  destruct (main_quotes_at_equilibrium (first_root (2 * 7 * z) c2))
    as (bn & an & sn & be & ae & se & Hm & _ & _ & Hrest).
  - apply first_root_finds. left. exact Hc1.
  - apply first_root_finds. right. exact Hc2.
  - exists bn, an, sn, be, ae, se. split; [exact Hm | exact Hrest].
Defined.

(** ** The returned spread is monotone in pi (C9) *)

(** The equilibrium spreads at two shares of informed traders. *)
Lemma normal_equilibria_ordered (mu sigma pi1 pi2 : R) :
  0 < sigma -> 0 < pi1 -> pi1 < pi2 -> pi2 < 1 ->
  exists r1 r2,
    Normal._expected_profit mu sigma pi1 r1 = Some 0
    /\ Normal._expected_profit mu sigma pi2 r2 = Some 0
    /\ (forall S, Normal._expected_profit mu sigma pi1 S = Some 0 -> S = r1)
    /\ (forall S, Normal._expected_profit mu sigma pi2 S = Some 0 -> S = r2)
    /\ r1 < r2.
Proof.
  intros Hs Hp1 Hlt Hp2.
  assert (Hs0 : sigma <> 0) by lra.
  assert (H1 : 0 < pi1 < 1) by lra.
  assert (H2 : 0 < pi2 < 1) by lra.
  destruct (normal_root_sig pi1 H1) as (z1 & _ & Hz1).
  destruct (normal_root_sig pi2 H2) as (z2 & _ & Hz2).
  pose proof (normal_profit_at_root mu sigma z1 Hs0) as R1.
  pose proof (normal_profit_at_root mu sigma z2 Hs0) as R2.
  rewrite Hz1 in R1. rewrite Hz2 in R2.
  exists (2 * sigma * z1), (2 * sigma * z2).
  split; [exact R1 | split; [exact R2 | split; [ | split]]].
  - intros S HS. apply (normal_roots_equal mu sigma pi1 S _ Hs0 HS R1).
  - intros S HS. apply (normal_roots_equal mu sigma pi2 S _ Hs0 HS R2).
  - apply (normal_root_monotone mu sigma pi1 pi2 _ _ Hs Hlt R1 R2).
Qed.

Lemma exponential_equilibria_ordered (lam pi1 pi2 : R) :
  0 < lam -> 0 < pi1 -> pi1 < pi2 -> pi2 < 1 ->
  pi1 <> 2 / 3 -> pi2 <> 2 / 3 ->
  exists r1 r2,
    Exponential._expected_profit lam pi1 (1.0 / lam) r1 = Some 0
    /\ Exponential._expected_profit lam pi2 (1.0 / lam) r2 = Some 0
    /\ (forall S, Exponential._expected_profit lam pi1 (1.0 / lam) S = Some 0
                  -> S = r1)
    /\ (forall S, Exponential._expected_profit lam pi2 (1.0 / lam) S = Some 0
                  -> S = r2)
    /\ r1 < r2.
Proof.
  intros Hlam Hp1 Hlt Hp2 N1 N2.
  assert (H1 : pi1 < 1) by lra.
  assert (H2 : 0 < pi2) by lra.
  assert (H0 : 0 <= pi1) by lra.
  destruct (exponential_root_sig lam pi1 Hlam Hp1 H1 N1) as (r1 & R1).
  destruct (exponential_root_sig lam pi2 Hlam H2 Hp2 N2) as (r2 & R2).
  exists r1, r2.
  split; [exact R1 | split; [exact R2 | split; [ | split]]].
  - intros S HS.
    apply (exponential_roots_equal lam pi1 S r1 Hlam Hp1 H1 HS R1).
  - intros S HS.
    apply (exponential_roots_equal lam pi2 S r2 Hlam H2 Hp2 HS R2).
  - apply (exponential_root_monotone lam pi1 pi2 r1 r2 Hlam H0 Hlt Hp2 R1 R2).
Qed.

(** C9.  Monotonicity in pi, for both families and any solver: with the
    distribution parameters fixed (sigma > 0, resp. lam > 0), 0 < pi,
    Delta > 0 and pi + Delta < 1 (for Exponential neither of them the real
    number 2/3, where the profit has no root), the equilibrium spreads r1 at
    pi and r2 at pi + Delta exist, each is the only root of its profit
    function, and r1 < r2.  So whenever the answers of the solver are
    within eps/2 of them, the returned spreads satisfy
    spread(pi + Delta) >= spread(pi) - eps. *)
Theorem spread_monotone_in_pi (fsolve : (R -> num) -> R -> R) :
  (forall mu sigma pi Delta : R,
      0 < sigma -> 0 < pi -> 0 < Delta -> pi + Delta < 1 ->
      exists r1 r2,
        Normal._expected_profit mu sigma pi r1 = Some 0
        /\ Normal._expected_profit mu sigma (pi + Delta) r2 = Some 0
        /\ (forall S, Normal._expected_profit mu sigma pi S = Some 0 ->
                      S = r1)
        /\ (forall S,
               Normal._expected_profit mu sigma (pi + Delta) S = Some 0 ->
               S = r2)
        /\ r1 < r2
        /\ forall eps g1 g2 : R,
            let s1 := fsolve (Normal._expected_profit mu sigma pi) g1 in
            let s2 :=
              fsolve (Normal._expected_profit mu sigma (pi + Delta)) g2 in
            Rabs (s1 - r1) <= eps / 2 -> Rabs (s2 - r2) <= eps / 2 ->
            exists q1 q2,
              bid_ask_normal fsolve mu sigma pi g1 = Return q1
              /\ bid_ask_normal fsolve mu sigma (pi + Delta) g2 = Return q2
              /\ spread q1 - eps <= spread q2)
  /\
  (forall lam pi Delta : R,
      0 < lam -> 0 < pi -> 0 < Delta -> pi + Delta < 1 ->
      pi <> 2 / 3 -> pi + Delta <> 2 / 3 ->
      let EV := 1.0 / lam in
      exists r1 r2,
        Exponential._expected_profit lam pi EV r1 = Some 0
        /\ Exponential._expected_profit lam (pi + Delta) EV r2 = Some 0
        /\ (forall S, Exponential._expected_profit lam pi EV S = Some 0 ->
                      S = r1)
        /\ (forall S,
               Exponential._expected_profit lam (pi + Delta) EV S = Some 0 ->
               S = r2)
        /\ r1 < r2
        /\ forall eps g1 g2 : R,
            let s1 := fsolve (Exponential._expected_profit lam pi EV) g1 in
            let s2 :=
              fsolve (Exponential._expected_profit lam (pi + Delta) EV) g2 in
            Rabs (s1 - r1) <= eps / 2 -> Rabs (s2 - r2) <= eps / 2 ->
            exists q1 q2,
              bid_ask_exponential fsolve lam pi g1 = Return q1
              /\ bid_ask_exponential fsolve lam (pi + Delta) g2 = Return q2
              /\ spread q1 - eps <= spread q2).
Proof.
  split.
  - intros mu sigma pi Delta Hs Hpi HD Hsum.
    assert (Hlt : pi < pi + Delta) by lra.
    destruct (normal_equilibria_ordered mu sigma pi (pi + Delta)
                Hs Hpi Hlt Hsum) as (r1 & r2 & R1 & R2 & U1 & U2 & Hr).
    exists r1, r2. repeat (split; [assumption | ]).
    intros eps g1 g2 s1 s2 H1 H2.
    do 2 eexists.
    split; [apply bid_ask_normal_total | ].
    split; [apply bid_ask_normal_total | ].
    simpl. fold s1 s2.
    apply Rabs_le_bounds in H1. apply Rabs_le_bounds in H2. lra.
  - intros lam pi Delta Hlam Hpi HD Hsum N1 N2 EV.
    assert (Hl0 : lam <> 0) by lra.
    assert (Hlt : pi < pi + Delta) by lra.
    destruct (exponential_equilibria_ordered lam pi (pi + Delta)
                Hlam Hpi Hlt Hsum N1 N2)
      as (r1 & r2 & R1 & R2 & U1 & U2 & Hr).
    exists r1, r2. repeat (split; [assumption | ]).
    intros eps g1 g2 s1 s2 H1 H2.
    do 2 eexists.
    split; [apply bid_ask_exponential_lam_nonzero, Hl0 | ].
    split; [apply bid_ask_exponential_lam_nonzero, Hl0 | ].
    simpl. fold EV. fold s1 s2.
    apply Rabs_le_bounds in H1. apply Rabs_le_bounds in H2. lra.
Qed.

(** The parameters of [main], pi raised by 0.2 resp. 0.29, and a solver
    whose answers miss the two equilibrium spreads by 1/400, with
    eps = 1/100. *)
Lemma spread_monotone_in_pi_witness :
  (exists g1 g2 q1 q2,
      bid_ask_normal no_step 102 7 0.3 g1 = Return q1
      /\ bid_ask_normal no_step 102 7 (0.3 + 0.2) g2 = Return q2
      /\ Normal._expected_profit 102 7 0.3 (spread q1) <> Some 0
      /\ spread q1 - 1 / 100 <= spread q2)
  /\
  (exists g1 g2 q1 q2,
      bid_ask_exponential no_step 0.0075 0.01 g1 = Return q1
      /\ bid_ask_exponential no_step 0.0075 (0.01 + 0.29) g2 = Return q2
      /\ Exponential._expected_profit 0.0075 0.01 (1.0 / 0.0075) (spread q1)
         <> Some 0
      /\ spread q1 - 1 / 100 <= spread q2).
Proof.
  split.
  - assert (Hs : 0 < 7) by lra.
    assert (Hpi : 0 < 0.3) by lra.
    assert (HD : 0 < 0.2) by lra.
    assert (Hsum : 0.3 + 0.2 < 1) by lra.
    destruct (proj1 (spread_monotone_in_pi no_step) 102 7 0.3 0.2
                Hs Hpi HD Hsum) as (r1 & r2 & _ & _ & U1 & _ & _ & Hmon).
    destruct (Hmon (1 / 100) (r1 + 1 / 400) (r2 - 1 / 400))
      as (q1 & q2 & Hq1 & Hq2 & Hle).
    + unfold no_step. replace (r1 + 1 / 400 - r1) with (1 / 400) by lra.
      rewrite Rabs_pos_eq; lra.
    + unfold no_step. replace (r2 - 1 / 400 - r2) with (- (1 / 400)) by lra.
      rewrite Rabs_Ropp, Rabs_pos_eq; lra.
    + exists (r1 + 1 / 400), (r2 - 1 / 400), q1, q2.
      split; [exact Hq1 | split; [exact Hq2 | split; [ | exact Hle]]].
      rewrite bid_ask_normal_total in Hq1. injection Hq1 as <-. simpl.
      unfold no_step. intros H. apply U1 in H. lra.
  - assert (Hlam : 0 < 0.0075) by lra.
    assert (Hl0 : 0.0075 <> 0) by lra.
    assert (Hpi : 0 < 0.01) by lra.
    assert (HD : 0 < 0.29) by lra.
    assert (Hsum : 0.01 + 0.29 < 1) by lra.
    assert (N1 : 0.01 <> 2 / 3) by lra.
    assert (N2 : 0.01 + 0.29 <> 2 / 3) by lra.
    destruct (proj2 (spread_monotone_in_pi no_step) 0.0075 0.01 0.29
                Hlam Hpi HD Hsum N1 N2)
      as (r1 & r2 & _ & _ & U1 & _ & _ & Hmon).
    destruct (Hmon (1 / 100) (r1 + 1 / 400) (r2 - 1 / 400))
      as (q1 & q2 & Hq1 & Hq2 & Hle).
    + unfold no_step. replace (r1 + 1 / 400 - r1) with (1 / 400) by lra.
      rewrite Rabs_pos_eq; lra.
    + unfold no_step. replace (r2 - 1 / 400 - r2) with (- (1 / 400)) by lra.
      rewrite Rabs_Ropp, Rabs_pos_eq; lra.
    + exists (r1 + 1 / 400), (r2 - 1 / 400), q1, q2.
      split; [exact Hq1 | split; [exact Hq2 | split; [ | exact Hle]]].
      rewrite (bid_ask_exponential_lam_nonzero no_step 0.0075 0.01 _ Hl0)
        in Hq1.
      injection Hq1 as <-. simpl.
      unfold no_step. intros H. apply U1 in H. lra.
Defined.
